(** * picfit: the goimage backend (engine/backend/goimage.go)

    A shallow embedding of the Go image backend: hex colour parsing,
    the luminance score, the scaling policy, the single-frame and the
    animated-GIF pipelines and the encoder dispatch, followed by the
    properties of the specification that concern them.

    Conventions.
    - Go [int] and [uint64] values are [Z]; wrap-around is written out
      where the source relies on it.
    - [float32] and [float64] are IEEE-754 binary32 / binary64 values of
      the standard library's [spec_float], every operation rounded to
      nearest-even as the hardware does.
    - A Go function returning [(x, error)] returns a pair whose second
      component is [option error] ([None] is Go's [nil] error); a nil
      byte slice is the empty list.
    - A run-time panic (index out of range, nil dereference) is the
      [Panics] outcome. *)

From Stdlib Require Import ZArith List Bool Ascii String Lia.
From Stdlib Require Import Floats.SpecFloat.
From stdpp Require Import gmap strings.

Local Open Scope Z_scope.

(** ** IEEE-754 arithmetic in the two formats of the source *)

(** binary32 *)
Module F32.

Definition prec : Z := 24.
Definition emax : Z := 128.

(** Conversion of an integer, rounded to nearest-even
    (Go: [float32(n)]). *)
Definition of_int (n : Z) : spec_float :=
  binary_normalize prec emax n 0 false.

Definition add := SFadd prec emax.
Definition mul := SFmul prec emax.
Definition div := SFdiv prec emax.
Definition ltb := SFltb.
Definition leb := SFleb.
Definition gtb (x y : spec_float) := SFltb y x.
Definition eqb := SFeqb.

(** The float nearest to the decimal literal [num / den]; both
    integers are exactly representable wherever this is used, so the
    division rounds once, as Go's constant conversion does. *)
Definition lit (num den : Z) : spec_float :=
  div (of_int num) (of_int den).

End F32.

(** binary64 *)
Module F64.

Definition prec : Z := 53.
Definition emax : Z := 1024.

(** Conversion of an integer, rounded to nearest-even
    (Go: [float64(n)]). *)
Definition of_int (n : Z) : spec_float :=
  binary_normalize prec emax n 0 false.

Definition add := SFadd prec emax.
Definition mul := SFmul prec emax.
Definition div := SFdiv prec emax.
Definition ltb := SFltb.
Definition leb := SFleb.
Definition gtb (x y : spec_float) := SFltb y x.
Definition eqb := SFeqb.

(** The float nearest to the decimal literal [num / den]; both
    integers are exactly representable wherever this is used, so the
    division rounds once, as Go's constant conversion does. *)
Definition lit (num den : Z) : spec_float :=
  div (of_int num) (of_int den).

Definition is_nan (x : spec_float) : bool :=
  match x with S754_nan => true | _ => false end.

Definition is_pinf (x : spec_float) : bool :=
  match x with S754_infinity false => true | _ => false end.

Definition signbit (x : spec_float) : bool :=
  match x with
  | S754_zero s | S754_infinity s | S754_finite s _ _ => s
  | S754_nan => false
  end.

End F64.

Definition float32 := spec_float.
Definition float64 := spec_float.

(** ** Outcomes of Go calls *)

Inductive outcome (A : Type) : Type :=
| Returns (a : A)
| Panics.
Arguments Returns {A} a.
Arguments Panics {A}.

Definition obind {A B} (m : outcome A) (k : A -> outcome B) : outcome B :=
  match m with
  | Returns a => k a
  | Panics => Panics
  end.

Notation "x <- m ;; k" := (obind m (fun x => k))
  (at level 100, m at next level, right associativity).

(** ** Color analysis: the luminance score *)

(** A [for _, v := range l] loop whose body may [return]: [body v] is
    [Some r] when the iteration returns [r] and [None] when it falls
    through to the next element. The result is [None] when the loop
    runs off the end of the slice. *)
Fixpoint range_return {A R : Type} (body : A -> option R) (l : list A)
  : option R :=
  match l with
  | [] => None
  | v :: rest =>
      match body v with
      | Some r => Some r
      | None => range_return body rest
      end
  end.

(** Slice indexing [items[i]]; out of range panics. *)
Definition index {A : Type} (items : list A) (i : nat) : outcome A :=
  match nth_error items i with
  | Some a => Returns a
  | None => Panics
  end.

(** The body of the loop of [FindLuminenace]: both branches return. *)
Definition FindLuminenace_body (v : float32) : option float32 :=
  let v := F32.div v (F32.of_int 255) in
  if F32.leb v (F32.lit 3928 100000)
  then Some (F32.div v (F32.lit 1292 100))
  else Some (F32.mul (F32.div (F32.add v (F32.lit 55 100)) (F32.lit 1055 1000))
                     (F32.of_int 2)).

(** The statement after the loop:
    [items[0]*0.2126 + items[1]*0.7152 + items[2]*0.07222]. *)
Definition FindLuminenace_sum (items : list float32) : outcome float32 :=
  i0 <- index items 0 ;;
  i1 <- index items 1 ;;
  i2 <- index items 2 ;;
  Returns (F32.add (F32.add (F32.mul i0 (F32.lit 2126 10000))
                            (F32.mul i1 (F32.lit 7152 10000)))
                   (F32.mul i2 (F32.lit 7222 100000))).

Definition FindLuminenace (items : list float32) : outcome float32 :=
  match range_return FindLuminenace_body items with
  | Some r => Returns r
  | None => FindLuminenace_sum items
  end.

(** ** Errors *)

Inductive error : Type :=
| ErrSyntax (fn num : string)
    (** [strconv.NumError] wrapping [strconv.ErrSyntax] *)
| ErrRange (fn num : string)
    (** [strconv.NumError] wrapping [strconv.ErrRange] *)
| ErrUnsupportedFormat
    (** [imaging.ErrUnsupportedFormat] *)
| ErrRotateDegree (deg : Z)
    (** "Invalid rotate transformation degree=%d is not supported" *)
| ErrFlipPosition (pos : string)
    (** "Invalid flip transformation, %s is not supported" *)
| ErrExternal (msg : string).
    (** an error reported by a decoder or an encoder *)

(** ** Color analysis: hexadecimal colours *)

Definition uint64_wrap (n : Z) : Z := n mod 2 ^ 64.
Definition uint8 (n : Z) : Z := n mod 2 ^ 8.

Definition byte_of_ascii (c : ascii) : Z := Z.of_N (Ascii.N_of_ascii c).

(** The bytes of a Go string. *)
Definition bytes_of_string (s : string) : list Z :=
  map byte_of_ascii (list_ascii_of_string s).

Module strconv.

Definition maxUint64 : Z := 2 ^ 64 - 1.

(** [lower(c) = c | ('x' - 'X')] *)
Definition lower (c : Z) : Z := Z.lor c 32.

(** The digit switch of the loop of [ParseUint] for an explicit base
    (no underscore case): [None] is the [default] branch. *)
Definition digit (c : Z) : option Z :=
  if (48 <=? c) && (c <=? 57) then Some (c - 48)
  else if (97 <=? lower c) && (lower c <=? 122) then Some (lower c - 97 + 10)
  else None.

Fixpoint ParseUint_loop (s0 : string) (base cutoff maxVal : Z)
    (cs : list Z) (n : Z) : Z * option error :=
  match cs with
  | [] => (n, None)
  | c :: cs' =>
      match digit c with
      | None => (0, Some (ErrSyntax "ParseUint" s0))
      | Some d =>
          if d >=? base mod 2 ^ 8 then (0, Some (ErrSyntax "ParseUint" s0))
          else if n >=? cutoff then (maxVal, Some (ErrRange "ParseUint" s0))
          else
            let n' := uint64_wrap (n * base) in
            let n1 := uint64_wrap (n' + d) in
            if (n1 <? n') || (n1 >? maxVal)
            then (maxVal, Some (ErrRange "ParseUint" s0))
            else ParseUint_loop s0 base cutoff maxVal cs' n1
      end
  end.

(** [strconv.ParseUint(s, base, bitSize)] of the Go standard library
    for an explicit base [2 <= base <= 36] and [1 <= bitSize <= 64],
    which is how [Hex2RGB] calls it: no prefix and no underscore is
    accepted then. *)
Definition ParseUint (s : string) (base bitSize : Z) : Z * option error :=
  if String.eqb s "" then (0, Some (ErrSyntax "ParseUint" s))
  else
    let cutoff := maxUint64 / base + 1 in
    let maxVal := uint64_wrap (Z.shiftl 1 bitSize - 1) in
    ParseUint_loop s base cutoff maxVal (bytes_of_string s) 0.

End strconv.

Record RGB : Type := mkRGB { Red : Z; Green : Z; Blue : Z }.

(** The zero value [RGB{}]. *)
Definition RGB_zero : RGB := mkRGB 0 0 0.

Definition Hex := string.

Definition Hex2RGB (hex : Hex) : RGB * option error :=
  match strconv.ParseUint hex 16 32 with
  | (_, Some err) => (RGB_zero, Some err)
  | (values, None) =>
      (mkRGB (uint8 (Z.shiftr values 16))
             (uint8 (Z.land (Z.shiftr values 8) 255))
             (uint8 (Z.land values 255)),
       None)
  end.

Definition toRGB (h : Hex) : RGB * option error := Hex2RGB h.

(** ** Rasters and the primitives of the imaging libraries *)

Definition bytes := list Byte.byte.

Record Point : Type := mkPoint { X : Z; Y : Z }.
Record Rectangle : Type := mkRectangle { Min : Point; Max : Point }.

(** [image.ZP] *)
Definition ZP : Point := mkPoint 0 0.

Definition image_Pt (x y : Z) : Point := mkPoint x y.

Definition Dx (r : Rectangle) : Z := X (Max r) - X (Min r).
Definition Dy (r : Rectangle) : Z := Y (Max r) - Y (Min r).
Definition Size (r : Rectangle) : Point := mkPoint (Dx r) (Dy r).

(** [image.Rect]: the corners are put in order. *)
Definition image_Rect (x0 y0 x1 y1 : Z) : Rectangle :=
  let '(x0, x1) := if x0 >? x1 then (x1, x0) else (x0, x1) in
  let '(y0, y1) := if y0 >? y1 then (y1, y0) else (y0, y1) in
  mkRectangle (mkPoint x0 y0) (mkPoint x1 y1).

(** [r.Add(p)] *)
Definition Rectangle_Add (r : Rectangle) (p : Point) : Rectangle :=
  mkRectangle (mkPoint (X (Min r) + X p) (Y (Min r) + Y p))
              (mkPoint (X (Max r) + X p) (Y (Max r) + Y p)).

(** The dynamic type behind an [image.Image] value. *)
Inductive ImageKind : Type := KNRGBA | KRGBA | KPaletted | KOther.

Record Image : Type := mkImage {
  Kind : ImageKind;
  Pix : list Byte.byte;
  Stride : Z;
  Rect : Rectangle
}.

Definition Bounds (img : Image) : Rectangle := Rect img.

Record Color : Type := mkColor { CR : Z; CG : Z; CB : Z; CA : Z }.

(** [image.Config] and [gif.GIF] *)
Record Config : Type := mkConfig {
  ColorModel : list Color;
  CWidth : Z;
  CHeight : Z
}.

Record GIF : Type := mkGIF {
  GImage : list Image;
  GDelay : list Z;
  GLoopCount : Z;
  GDisposal : list Byte.byte;
  GConfig : Config;
  GBackgroundIndex : Byte.byte
}.

(** [imaging.Format] is an [int]: the five constants of the library,
    in the order of its [iota] block. *)
Definition Format := Z.
Definition JPEG : Format := 0.
Definition PNG : Format := 1.
Definition GIF_ : Format := 2.
Definition TIFF : Format := 3.
Definition BMP : Format := 4.

Inductive ResampleFilter : Type := Lanczos.
Inductive Op : Type := Over | Src.

Inductive result (A : Type) : Type :=
| Ok (a : A)
| Fail (e : error).
Arguments Ok {A} a.
Arguments Fail {A} e.

Definition imageTransformation := Image -> Image.
Definition transformation := Image -> Z -> Z -> ResampleFilter -> Image.

(** The fields of [Options] (declared in another file of the package)
    that this file reads or writes. *)
Record Options : Type := mkOptions {
  Upscale : bool;
  Format_ : Format;
  Quality : Z;
  Width : Z;
  Height : Z;
  Position : string;
  Degree : Z
}.

(** [imagefile.ImageFile]: only [Source] is used here. *)
Record ImageFile : Type := mkImageFile { Source : bytes }.

(** What this file calls and does not define. An encoder is given by
    the bytes it writes to its writer and the error it returns; a
    decoder by its value or its error. [decode] is the package's own
    decoder, declared in another file; [watermark_asset name] is
    [os.Open(name)] followed by [png.Decode], [None] when either fails
    (the source drops both errors and is left with a nil image). *)
Record Lib : Type := mkLib {
  decode : bytes -> result Image;
  gif_Decode : bytes -> result Image;
  gif_DecodeAll : bytes -> result GIF;
  gif_EncodeAll : GIF -> bytes * option error;
  jpeg_Encode : Image -> Z -> bytes * option error;
  png_Encode : Image -> bytes * option error;
  gif_Encode : Image -> Z -> bytes * option error;
  tiff_Encode : Image -> bytes * option error;
  bmp_Encode : Image -> bytes * option error;
  imaging_Resize : transformation;
  imaging_Thumbnail : transformation;
  imaging_Fit : transformation;
  imaging_FlipH : imageTransformation;
  imaging_FlipV : imageTransformation;
  imaging_Rotate90 : imageTransformation;
  imaging_Rotate180 : imageTransformation;
  imaging_Rotate270 : imageTransformation;
  image_NewRGBA : Rectangle -> Image;
  image_NewPaletted_Plan9 : Rectangle -> Image;
  image_NewUniform_Alpha : Z -> Image;
  NRGBA_Opaque : Image -> bool;
  draw_Draw : Image -> Rectangle -> Image -> Point -> Op -> Image;
  draw_DrawMask :
    Image -> Rectangle -> Image -> Point -> Image -> Point -> Op -> Image;
  FloydSteinberg_Draw : Image -> Rectangle -> Image -> Point -> Image;
  dominantcolor_Find : Image -> Color;
  dominantcolor_Hex : Color -> string;
  watermark_asset : string -> option Image
}.

(** ** The [math] functions used on [float64] *)

Module math.

(** [math.Max], with its special cases in the order of the source. *)
Definition Max (x y : float64) : float64 :=
  if F64.is_pinf x || F64.is_pinf y then S754_infinity false
  else if F64.is_nan x || F64.is_nan y then S754_nan
  else if F64.eqb x (S754_zero false) && F64.eqb x y
       then (if F64.signbit x then y else x)
  else if F64.gtb x y then x
  else y.

(** [math.Floor]: zeros, infinities and NaN are returned as they are. *)
Definition Floor (x : float64) : float64 :=
  match x with
  | S754_finite s m e =>
      if 0 <=? e then x
      else
        let z := Z.shiftr (if s then Z.neg m else Z.pos m) (- e) in
        if z =? 0 then S754_zero false else F64.of_int z
  | _ => x
  end.

Definition minInt64 : Z := - 2 ^ 63.

(** The conversion [int(x)]: truncation toward zero. Outside the
    range of [int] the language leaves the value to the
    implementation; the amd64 result is used. *)
Definition to_int (x : float64) : Z :=
  match x with
  | S754_zero _ => 0
  | S754_finite s m e =>
      let a := if 0 <=? e then Z.shiftl (Z.pos m) e
               else Z.shiftr (Z.pos m) (- e) in
      let t := if s then - a else a in
      if (minInt64 <=? t) && (t <? 2 ^ 63) then t else minInt64
  | _ => minInt64
  end.

End math.

(** [strings.Replace(s, "#", "", 1)] *)
Fixpoint strings_Replace_hash (s : string) : string :=
  match s with
  | EmptyString => EmptyString
  | String c rest =>
      if Ascii.eqb c "#" then rest else String c (strings_Replace_hash rest)
  end.

(** ** Scaling policy *)

Definition scalingFactor (srcWidth srcHeight destWidth destHeight : Z)
  : float64 :=
  math.Max (F64.div (F64.of_int destWidth) (F64.of_int srcWidth))
           (F64.div (F64.of_int destHeight) (F64.of_int srcHeight)).

Definition imageSize (e : Image) : Z * Z :=
  (X (Max (Bounds e)), Y (Max (Bounds e))).

Definition scalingFactorImage (img : Image) (dstWidth dstHeight : Z)
  : float64 :=
  let '(width, height) := imageSize img in
  scalingFactor width height dstWidth dstHeight.

(** The condition of the [if] of [scale]: [factor < 1 || options.Upscale]. *)
Definition scale_transforms (factor : float64) (upscale : bool) : bool :=
  F64.ltb factor (F64.of_int 1) || upscale.

(** The condition of the early return of [transformGIF]:
    [factor > 1 && !options.Upscale]. *)
Definition gif_returns_source (factor : float64) (upscale : bool) : bool :=
  F64.gtb factor (F64.of_int 1) && negb upscale.

Definition scale (img : Image) (options : Options) (trans : transformation)
  : Image :=
  let factor := scalingFactorImage img (Width options) (Height options) in
  if scale_transforms factor (Upscale options)
  then trans img (Width options) (Height options) Lanczos
  else img.

(** ** The backend over a given library *)

Section Backend.

Variable L : Lib.

Definition flipTransformations : gmap string imageTransformation :=
  list_to_map [("h"%string, imaging_FlipH L); ("v"%string, imaging_FlipV L)].

Definition rotateTransformations : gmap Z imageTransformation :=
  list_to_map [(90, imaging_Rotate90 L);
               (270, imaging_Rotate270 L);
               (180, imaging_Rotate180 L)].

Definition imageToPaletted (img : Image) : Image :=
  let b := Bounds img in
  let pm := image_NewPaletted_Plan9 L b in
  FloydSteinberg_Draw L pm b img ZP.

Definition FindDominantColor (img : Image) : string :=
  dominantcolor_Hex L (dominantcolor_Find L img).

(** The two [fmt.Print] calls to the standard output are left out:
    no returned value depends on them. *)
Definition createWatermark (base : Image) : outcome Image :=
  let hex := strings_Replace_hash (FindDominantColor base) in
  let '(rgb, _) := Hex2RGB hex in
  let markPath := "watermark.png"%string in
  let list := ([] ++ [F32.of_int (Red rgb)]) ++ [F32.of_int (Green rgb)] in
  let list := list ++ [F32.of_int (Blue rgb)] in
  status <- FindLuminenace list ;;
  let markPath :=
    if F32.gtb status (F32.lit 190 100)
    then "watermark_colored.png"%string else markPath in
  match watermark_asset L markPath with
  | None => Panics
  | Some mark =>
      let baseBound := Bounds base in
      let markBound := Bounds mark in
      let offset :=
        image_Pt (X (Size baseBound) ÷ 2 - X (Size markBound) ÷ 2)
                 (Y (Size baseBound) ÷ 2 - Y (Size markBound) ÷ 2) in
      let outputImage := image_NewRGBA L baseBound in
      let outputImage :=
        draw_Draw L outputImage (Bounds outputImage) base ZP Src in
      let outputImage :=
        draw_DrawMask L outputImage (Rectangle_Add (Bounds mark) offset)
                      mark ZP (image_NewUniform_Alpha L 64) ZP Over in
      Returns outputImage
  end.

(** [encode(w, img, format, quality)]: [w] is the content of the
    writer before the call; the result is its content after the call
    and the returned error. *)
Definition encode (w : bytes) (img : Image) (format : Format) (quality : Z)
  : outcome (bytes * option error) :=
  if format =? JPEG then
    let rgba :=
      match Kind img with
      | KNRGBA =>
          if NRGBA_Opaque L img
          then Some (mkImage KRGBA (Pix img) (Stride img) (Rect img))
          else None
      | _ => None
      end in
    marked <- createWatermark (match rgba with
                               | Some rgba => rgba
                               | None => img
                               end) ;;
    let '(out, err) := jpeg_Encode L marked quality in
    Returns (w ++ out, err)
  else if format =? PNG then
    let '(out, err) := png_Encode L img in Returns (w ++ out, err)
  else if format =? GIF_ then
    let '(out, err) := gif_Encode L img 256 in Returns (w ++ out, err)
  else if format =? TIFF then
    let '(out, err) := tiff_Encode L img in Returns (w ++ out, err)
  else if format =? BMP then
    let '(out, err) := bmp_Encode L img in Returns (w ++ out, err)
  else Returns (w, Some ErrUnsupportedFormat).

Definition toBytes (img : Image) (format : Format) (quality : Z)
  : outcome (bytes * option error) :=
  r <- encode [] img format quality ;;
  match r with
  | (_, Some err) => Returns ([], Some err)
  | (buf, None) => Returns (buf, None)
  end.

Definition source (img : ImageFile) : result Image :=
  decode L (Source img).

Definition transform (img : Image) (options : Options) (trans : transformation)
  : outcome (bytes * option error) :=
  toBytes (scale img options trans) (Format_ options) (Quality options).

Definition Rotate (img : ImageFile) (options : Options)
  : outcome (bytes * option error) :=
  match source img with
  | Fail err => Returns ([], Some err)
  | Ok image =>
      let deg := Degree options in
      match rotateTransformations !! deg with
      | None => Returns ([], Some (ErrRotateDegree deg))
      | Some transform =>
          toBytes (transform image) (Format_ options) (Quality options)
      end
  end.

Definition Flip (img : ImageFile) (options : Options)
  : outcome (bytes * option error) :=
  match source img with
  | Fail err => Returns ([], Some err)
  | Ok image =>
      let pos := Position options in
      match flipTransformations !! pos with
      | None => Returns ([], Some (ErrFlipPosition pos))
      | Some transform =>
          toBytes (transform image) (Format_ options) (Quality options)
      end
  end.

(** The frame loop of [transformGIF]: every frame is drawn over the
    accumulator [im], and the scaled, re-quantized accumulator takes
    its place in [g.Image]. *)
Fixpoint transformGIF_frames (options : Options) (trans : transformation)
    (im : Image) (frames : list Image) : list Image :=
  match frames with
  | [] => []
  | frame :: rest =>
      let bounds := Bounds frame in
      let im := draw_Draw L im bounds frame (Min bounds) Over in
      imageToPaletted (scale im options trans)
        :: transformGIF_frames options trans im rest
  end.

Definition set_Width (w : Z) (o : Options) : Options :=
  mkOptions (Upscale o) (Format_ o) (Quality o) w (Height o)
            (Position o) (Degree o).

Definition set_Height (h : Z) (o : Options) : Options :=
  mkOptions (Upscale o) (Format_ o) (Quality o) (Width o) h
            (Position o) (Degree o).

(** [int(math.Max(1.0, math.Floor(a * b / c + 0.5)))] on converted
    integers. *)
Definition derive_dimension (a b c : Z) : Z :=
  let tmp := F64.div (F64.mul (F64.of_int a) (F64.of_int b)) (F64.of_int c) in
  math.to_int (math.Max (F64.of_int 1)
                        (math.Floor (F64.add tmp (F64.lit 5 10)))).

(** [options] is a pointer in the source and [transformGIF] writes to
    it: the options after the call are returned with the result. *)
Definition transformGIF (img : ImageFile) (options : Options)
    (trans : transformation) : outcome ((bytes * option error) * Options) :=
  match gif_Decode L (Source img) with
  | Fail err => Returns (([], Some err), options)
  | Ok first =>
      let factor :=
        scalingFactorImage first (Width options) (Height options) in
      if gif_returns_source factor (Upscale options)
      then Returns ((Source img, None), options)
      else
        match gif_DecodeAll L (Source img) with
        | Fail err => Returns (([], Some err), options)
        | Ok g =>
            frame0 <- index (GImage g) 0 ;;
            let firstFrame := Bounds frame0 in
            let b := image_Rect 0 0 (Dx firstFrame) (Dy firstFrame) in
            let im := image_NewRGBA L b in
            let frames := transformGIF_frames options trans im (GImage g) in
            let '(srcW, srcH) := imageSize first in
            let options :=
              if Width options =? 0
              then set_Width (derive_dimension (Height options) srcW srcH)
                             options
              else options in
            let options :=
              if Height options =? 0
              then set_Height (derive_dimension (Width options) srcH srcW)
                              options
              else options in
            let g :=
              mkGIF frames (GDelay g) (GLoopCount g) (GDisposal g)
                    (mkConfig (ColorModel (GConfig g))
                              (Width options) (Height options))
                    (GBackgroundIndex g) in
            match gif_EncodeAll L g with
            | (_, Some err) => Returns (([], Some err), options)
            | (buf, None) => Returns ((buf, None), options)
            end
        end
  end.

(** A result that leaves the caller's options as they were. *)
Definition with_options (options : Options)
    (r : outcome (bytes * option error))
  : outcome ((bytes * option error) * Options) :=
  r <- r ;; Returns (r, options).

Definition resize (img : ImageFile) (options : Options)
    (trans : transformation) : outcome ((bytes * option error) * Options) :=
  if Format_ options =? GIF_ then
    r <- transformGIF img options trans ;;
    match r with
    | ((_, Some err), options) => Returns (([], Some err), options)
    | ((content, None), options) => Returns ((content, None), options)
    end
  else
    match source img with
    | Fail err => Returns (([], Some err), options)
    | Ok image => with_options options (transform image options trans)
    end.

Definition Resize (img : ImageFile) (options : Options) :=
  resize img options (imaging_Resize L).

Definition Thumbnail (img : ImageFile) (options : Options) :=
  resize img options (imaging_Thumbnail L).

Definition Fit (img : ImageFile) (options : Options)
  : outcome ((bytes * option error) * Options) :=
  if Format_ options =? GIF_ then
    r <- transformGIF img options (imaging_Thumbnail L) ;;
    match r with
    | ((_, Some err), options) => Returns (([], Some err), options)
    | ((content, None), options) => Returns ((content, None), options)
    end
  else
    match source img with
    | Fail err => Returns (([], Some err), options)
    | Ok image => with_options options (transform image options (imaging_Fit L))
    end.

End Backend.

(** ** A small library instance

    A self-contained instance of [Lib], used to run the backend on
    concrete inputs. An encoded image is a format tag, a width byte, a
    height byte and the pixel bytes; encoders write exactly that, and
    decoders read it back. *)

Module Sample.

Definition dim (b : Byte.byte) : Z := Z.of_N (Byte.to_N b).

Definition byte_of (z : Z) : Byte.byte :=
  match Byte.of_N (Z.to_N (z mod 256)) with
  | Some b => b
  | None => Byte.x00
  end.

Definition box (w h : Z) : Rectangle := mkRectangle ZP (mkPoint w h).

Definition tag_of (f : Format) : Byte.byte := byte_of f.

Definition decode_any (k : ImageKind) (src : bytes) : result Image :=
  match src with
  | t :: w :: h :: pix =>
      if dim t <=? BMP
      then Ok (mkImage k pix (dim w) (box (dim w) (dim h)))
      else Fail (ErrExternal "image: unknown format")
  | _ => Fail (ErrExternal "unexpected EOF")
  end.

Definition decode_gif (src : bytes) : result Image :=
  match src with
  | t :: _ =>
      if dim t =? GIF_ then decode_any KPaletted src
      else Fail (ErrExternal "gif: can't recognize format")
  | [] => Fail (ErrExternal "unexpected EOF")
  end.

Definition decode_all (src : bytes) : result GIF :=
  match decode_gif src with
  | Ok im =>
      Ok (mkGIF [im] [0] 0 [Byte.x00]
                (mkConfig [] (Dx (Rect im)) (Dy (Rect im))) Byte.x00)
  | Fail e => Fail e
  end.

Definition write (f : Format) (w h : Z) (pix : list Byte.byte)
  : bytes * option error :=
  (tag_of f :: byte_of w :: byte_of h :: pix, None).

Definition encode_as (f : Format) (img : Image) : bytes * option error :=
  write f (Dx (Rect img)) (Dy (Rect img)) (Pix img).

(** The canvas size, then every frame with its own size. *)
Definition encode_all (g : GIF) : bytes * option error :=
  write GIF_ (CWidth (GConfig g)) (CHeight (GConfig g))
        (concat (map (fun f => byte_of (Dx (Rect f))
                                 :: byte_of (Dy (Rect f)) :: Pix f)
                     (GImage g))).

(** Exactly [w] by [h]. *)
Definition fill : transformation :=
  fun img w h _ => mkImage KNRGBA (Pix img) (4 * w) (box w h).

(** The largest size of the source's aspect ratio inside [w] by [h]. *)
Definition fit_within : transformation :=
  fun img w h _ =>
    let sw := Dx (Rect img) in
    let sh := Dy (Rect img) in
    if (w <=? 0) || (h <=? 0) || (sw <=? 0) || (sh <=? 0)
    then mkImage KNRGBA [] 0 (box 0 0)
    else if (sw <=? w) && (sh <=? h)
    then mkImage KNRGBA (Pix img) (4 * sw) (box sw sh)
    else if sw * h >? w * sh
    then mkImage KNRGBA (Pix img) (4 * w) (box w (w * sh / sw))
    else mkImage KNRGBA (Pix img) (4 * (h * sw / sh)) (box (h * sw / sh) h).

Definition turn : imageTransformation :=
  fun img =>
    mkImage KNRGBA (Pix img) (4 * Dy (Rect img))
            (box (Dy (Rect img)) (Dx (Rect img))).

Definition mirror : imageTransformation :=
  fun img => mkImage KNRGBA (rev (Pix img)) (Stride img) (Rect img).

Definition paint (dst src : Image) : Image :=
  mkImage (Kind dst) (Pix src) (Stride dst) (Rect dst).

Definition lib : Lib :=
  {| decode := decode_any KNRGBA;
     gif_Decode := decode_gif;
     gif_DecodeAll := decode_all;
     gif_EncodeAll := encode_all;
     jpeg_Encode := fun img _ => encode_as JPEG img;
     png_Encode := encode_as PNG;
     gif_Encode := fun img _ => encode_as GIF_ img;
     tiff_Encode := encode_as TIFF;
     bmp_Encode := encode_as BMP;
     imaging_Resize := fill;
     imaging_Thumbnail := fill;
     imaging_Fit := fit_within;
     imaging_FlipH := mirror;
     imaging_FlipV := mirror;
     imaging_Rotate90 := turn;
     imaging_Rotate180 := mirror;
     imaging_Rotate270 := turn;
     image_NewRGBA := fun r => mkImage KRGBA [] (4 * Dx r) r;
     image_NewPaletted_Plan9 := fun r => mkImage KPaletted [] (Dx r) r;
     image_NewUniform_Alpha := fun a => mkImage KOther [byte_of a] 0 (box 0 0);
     NRGBA_Opaque := fun _ => true;
     draw_Draw := fun dst _ src _ _ => paint dst src;
     draw_DrawMask := fun dst _ _ _ _ _ _ => dst;
     FloydSteinberg_Draw := fun dst _ src _ => paint dst src;
     dominantcolor_Find := fun _ => mkColor 255 255 255 255;
     dominantcolor_Hex := fun _ => "#FFFFFF"%string;
     watermark_asset := fun _ => Some (mkImage KNRGBA [] 40 (box 10 10)) |}.

(** A 100 by 50 image in each of two formats, with two pixel bytes. *)
Definition png_100x50 : ImageFile :=
  mkImageFile [tag_of PNG; byte_of 100; byte_of 50; Byte.x01; Byte.x02].

Definition gif_100x50 : ImageFile :=
  mkImageFile [tag_of GIF_; byte_of 100; byte_of 50; Byte.x01; Byte.x02].

Definition options (f : Format) (w h : Z) (up : bool) : Options :=
  mkOptions up f 90 w h "h" 90.

End Sample.

(** ** The luminance formula as the specification words it

    Per-channel correction of the sRGB / BT.709 formula, then the
    weighted sum. The power-law branch needs a real power, which the
    float model does not have: it is the parameter [pw], applied to
    [(v + 0.055) / 1.055]. *)

Definition bt709_channel (pw : float32 -> float32) (c : float32) : float32 :=
  let v := F32.div c (F32.of_int 255) in
  if F32.leb v (F32.lit 3928 100000)
  then F32.div v (F32.lit 1292 100)
  else pw (F32.div (F32.add v (F32.lit 55 1000)) (F32.lit 1055 1000)).

Definition relative_luminance_spec (pw : float32 -> float32)
    (items : list float32) : option float32 :=
  match items with
  | [r; g; b] =>
      Some (F32.add
              (F32.add (F32.mul (F32.lit 2126 10000) (bt709_channel pw r))
                       (F32.mul (F32.lit 7152 10000) (bt709_channel pw g)))
              (F32.mul (F32.lit 722 10000) (bt709_channel pw b)))
  | _ => None
  end.

(** ** Hexadecimal strings, read independently of the parser *)

(** The value of a hexadecimal digit; [None] for any other character. *)
Definition hex_digit_value (c : ascii) : option Z :=
  let n := byte_of_ascii c in
  if (48 <=? n) && (n <=? 57) then Some (n - 48)          (* 0-9 *)
  else if (97 <=? n) && (n <=? 102) then Some (n - 87)    (* a-f *)
  else if (65 <=? n) && (n <=? 70) then Some (n - 55)     (* A-F *)
  else None.

(** The number denoted by the digits of [cs] after the digits already
    read as [n]; [None] when a character is not a hexadecimal digit. *)
Fixpoint hex_value_from (n : Z) (cs : list ascii) : option Z :=
  match cs with
  | [] => Some n
  | c :: cs' =>
      match hex_digit_value c with
      | Some d => hex_value_from (16 * n + d) cs'
      | None => None
      end
  end.

(** The number a string denotes in base 16; [None] when it is empty or
    is not made of hexadecimal digits only. *)
Definition hex_value (s : string) : option Z :=
  match list_ascii_of_string s with
  | [] => None
  | cs => hex_value_from 0 cs
  end.

(** [c] is the 8-bit field of [v] that starts at bit [lo]. *)
Definition bit_field (v lo c : Z) : Prop :=
  0 <= c < 2 ^ 8 /\
  forall i, 0 <= i < 8 -> Z.testbit c i = Z.testbit v (lo + i).

(** The largest value [ParseUint] accepts at a bit size of 32. *)
Definition maxVal32 : Z := 2 ^ 32 - 1.

(** ** Auxiliary notions on the float model *)

(** The location left by dropping the last bit of [q]. *)
Definition loc_half (q : Z) (l : location) : location :=
  loc_of_shr_record (shr_1 (shr_record_of_loc q l)).

(** A float that is zero or carries the sign [s]. *)
Definition signed (s : bool) (x : spec_float) : Prop :=
  match x with
  | S754_zero _ => True
  | S754_infinity s' | S754_finite s' _ _ => s' = s
  | S754_nan => False
  end.

(** A key whose lexicographic order is the order of [SFcompare]. *)
Definition key (x : spec_float) : Z * Z * Z :=
  match x with
  | S754_infinity true => (-2, 0, 0)
  | S754_finite true m e => (-1, - e, - Z.pos m)
  | S754_zero _ | S754_nan => (0, 0, 0)
  | S754_finite false m e => (1, e, Z.pos m)
  | S754_infinity false => (2, 0, 0)
  end.

Definition lex_le (p q : Z * Z * Z) : Prop :=
  let '(a1, b1, c1) := p in
  let '(a2, b2, c2) := q in
  a1 < a2 \/ (a1 = a2 /\ (b1 < b2 \/ (b1 = b2 /\ c1 <= c2))).

(** The larger of two comparison results. *)
Definition cmax (c1 c2 : comparison) : comparison :=
  match c1, c2 with
  | Gt, _ | _, Gt => Gt
  | Eq, _ | _, Eq => Eq
  | Lt, Lt => Lt
  end.

(** ** Six-digit hexadecimal colours *)

(** The character of a hexadecimal digit, in upper or in lower case. *)
Definition nibble_char (upper : bool) (n : Z) : ascii :=
  if n <? 10 then ascii_of_N (Z.to_N (48 + n))
  else ascii_of_N (Z.to_N ((if upper then 55 else 87) + n)).

Definition hex_byte (upper : bool) (v : Z) : list ascii :=
  [nibble_char upper (v / 16); nibble_char upper (v mod 16)].

(** ["RRGGBB"]: two digits per channel. *)
Definition hex6 (upper : bool) (r g b : Z) : string :=
  string_of_list_ascii
    (hex_byte upper r ++ hex_byte upper g ++ hex_byte upper b).

(** ** The composites of an animation

    The accumulator after each frame has been drawn over it, in frame
    order. *)
Fixpoint composites (L : Lib) (im : Image) (frames : list Image)
  : list Image :=
  match frames with
  | [] => []
  | frame :: rest =>
      let im := draw_Draw L im (Bounds frame) frame (Min (Bounds frame)) Over in
      im :: composites L im rest
  end.

(** The watermark file chosen for a dominant colour whose red channel
    is [red]. *)
Definition watermark_path (red : Z) : string :=
  if 116 <=? red then "watermark_colored.png"%string
  else "watermark.png"%string.

(** * Properties *)

(** ** Luminance *)

Lemma FindLuminenace_body_returns (v : float32) :
  exists r, FindLuminenace_body v = Some r.
Proof.
  unfold FindLuminenace_body.
  destruct (F32.leb _ _); eexists; reflexivity.
Qed.

Lemma range_return_first {A R : Type} (body : A -> option R) v rest r :
  body v = Some r -> range_return body (v :: rest) = Some r.
Proof. intros H. simpl. now rewrite H. Qed.

(** C10. On a slice with at least one element [FindLuminenace] returns,
    its loop returns in the first iteration (so the weighted sum after
    the loop is never reached), and the result is that of the first
    element alone; on the empty slice the index expression after the
    loop panics. *)
Theorem FindLuminenace_first_element_only :
  (forall v rest, exists r,
      FindLuminenace_body v = Some r /\
      range_return FindLuminenace_body (v :: rest) = Some r /\
      FindLuminenace (v :: rest) = Returns r) /\
  (forall v rest rest',
      FindLuminenace (v :: rest) = FindLuminenace (v :: rest')) /\
  FindLuminenace [] = Panics.
Proof.
  split; [| split].
  - intros v rest.
    destruct (FindLuminenace_body_returns v) as [r Hr].
    exists r. split; [exact Hr |].
    pose proof (range_return_first FindLuminenace_body v rest r Hr) as Hl.
    split; [exact Hl |].
    unfold FindLuminenace. now rewrite Hl.
  - intros v rest rest'.
    destruct (FindLuminenace_body_returns v) as [r Hr].
    unfold FindLuminenace.
    rewrite (range_return_first _ v rest r Hr).
    now rewrite (range_return_first _ v rest' r Hr).
  - reflexivity.
Qed.

(** C3. The code does not compute the weighted sum of the three
    corrected channels. On the channels (0, 10, 10), all three in the
    low-value branch, the formula gives a non-zero luminance whatever
    the power function, and [FindLuminenace] returns the corrected
    first channel, zero; changing the other two channels changes the
    formula's value and not the code's. *)
Theorem FindLuminenace_not_weighted_sum :
  let items := map F32.of_int [0; 10; 10] in
  let items' := map F32.of_int [0; 0; 0] in
  FindLuminenace items = Returns (S754_zero false) /\
  FindLuminenace items' = Returns (S754_zero false) /\
  (forall pw,
      relative_luminance_spec pw items
      = Some (S754_finite false 10264850 (-32))) /\
  (forall pw, relative_luminance_spec pw items' = Some (S754_zero false)).
Proof.
  repeat split; intros; vm_compute; reflexivity.
Qed.

(** ** Hexadecimal colours *)

Lemma digit_hex_digit (c : ascii) :
  match hex_digit_value c with
  | Some d => strconv.digit (byte_of_ascii c) = Some d /\ 0 <= d < 16
  | None =>
      strconv.digit (byte_of_ascii c) = None \/
      exists d, strconv.digit (byte_of_ascii c) = Some d /\ 16 <= d
  end.
Proof.
  destruct c as [[] [] [] [] [] [] [] []]; vm_compute;
    first [ split; [reflexivity | split; [discriminate | reflexivity]]
          | left; reflexivity
          | right; eexists; split; [reflexivity | discriminate] ].
Qed.

Lemma hex_value_from_ge (cs : list ascii) :
  forall n v, 0 <= n -> hex_value_from n cs = Some v -> n <= v.
Proof.
  induction cs as [| c cs IH]; intros n v Hn H; simpl in H.
  - injection H as <-. lia.
  - pose proof (digit_hex_digit c) as Hd.
    destruct (hex_digit_value c) as [d |]; [| discriminate].
    destruct Hd as [_ Hd].
    apply IH in H; lia.
Qed.

Lemma ParseUint_loop_spec (s0 : string) (cs : list ascii) :
  forall n, 0 <= n <= maxVal32 ->
  let r := strconv.ParseUint_loop s0 16 (strconv.maxUint64 / 16 + 1) maxVal32
             (map byte_of_ascii cs) n in
  match hex_value_from n cs with
  | Some v => if v <=? maxVal32 then r = (v, None)
              else exists x e, r = (x, Some e)
  | None => exists x e, r = (x, Some e)
  end.
Proof.
  induction cs as [| c cs IH]; intros n Hn; simpl.
  - destruct (Z.leb_spec n maxVal32); [reflexivity | lia].
  - pose proof (digit_hex_digit c) as Hd.
    destruct (hex_digit_value c) as [d |] eqn:Hc.
    + destruct Hd as [Hd Hr]. rewrite Hd.
      change (16 mod 2 ^ 8) with 16.
      destruct (Z.geb_spec d 16) as [|_]; [lia |].
      change (strconv.maxUint64 / 16 + 1) with (2 ^ 60).
      unfold maxVal32 in *.
      destruct (Z.geb_spec n (2 ^ 60)) as [|_]; [lia |].
      unfold uint64_wrap.
      rewrite (Z.mod_small (n * 16)) by lia.
      rewrite (Z.mod_small (n * 16 + d)) by lia.
      destruct (Z.ltb_spec (n * 16 + d) (n * 16)) as [|_]; [lia |].
      simpl orb.
      destruct (Z.gtb_spec (n * 16 + d) (2 ^ 32 - 1)) as [Hgt | Hle].
      * destruct (hex_value_from (16 * n + d) cs) as [v |] eqn:Hv.
        -- apply hex_value_from_ge in Hv; [| lia].
           destruct (Z.leb_spec v (2 ^ 32 - 1)); [lia |].
           eexists _, _; reflexivity.
        -- eexists _, _; reflexivity.
      * replace (16 * n + d) with (n * 16 + d) by lia.
        apply (IH (n * 16 + d)). lia.
    + destruct Hd as [Hd | (d & Hd & Hr)]; rewrite Hd.
      * eexists _, _; reflexivity.
      * change (16 mod 2 ^ 8) with 16.
        destruct (Z.geb_spec d 16) as [_ |]; [| lia].
        eexists _, _; reflexivity.
Qed.

Lemma ParseUint_16_32_spec (s : string) :
  match hex_value s with
  | Some v => if v <? 2 ^ 32 then strconv.ParseUint s 16 32 = (v, None)
              else exists x e, strconv.ParseUint s 16 32 = (x, Some e)
  | None => exists x e, strconv.ParseUint s 16 32 = (x, Some e)
  end.
Proof.
  unfold hex_value, strconv.ParseUint.
  destruct s as [| c s].
  - simpl. eexists _, _; reflexivity.
  - change (String.eqb (String c s) "") with false. cbv iota.
    change (uint64_wrap (Z.shiftl 1 32 - 1)) with maxVal32.
    unfold bytes_of_string.
    pose proof (ParseUint_loop_spec (String c s)
                  (list_ascii_of_string (String c s)) 0) as H.
    cbv zeta in H.
    assert (H0 : 0 <= 0 <= maxVal32) by (unfold maxVal32; lia).
    specialize (H H0).
    change (list_ascii_of_string (String c s))
      with (c :: list_ascii_of_string s) in *.
    destruct (hex_value_from 0 (c :: list_ascii_of_string s)) as [v |];
      [| exact H].
    unfold maxVal32 in H.
    destruct (Z.ltb_spec v (2 ^ 32)); destruct (Z.leb_spec v (2 ^ 32 - 1));
      try lia; exact H.
Qed.

Lemma uint8_bit_field (v lo : Z) :
  0 <= lo -> bit_field v lo (uint8 (Z.shiftr v lo)).
Proof.
  intros Hlo. unfold bit_field, uint8. split.
  - apply Z.mod_pos_bound. lia.
  - intros i Hi.
    rewrite Z.mod_pow2_bits_low by lia.
    rewrite Z.shiftr_spec by lia. f_equal. lia.
Qed.

Lemma land_255 (x : Z) : Z.land x 255 = x mod 2 ^ 8.
Proof. change 255 with (Z.ones 8). apply Z.land_ones. lia. Qed.

(** C4, as stated, fails: a string whose value needs more than 24 bits
    is not rejected. ["1000000"] denotes [2 ^ 24] and is parsed without
    error, to the colour (0, 0, 0). *)
Lemma Hex2RGB_accepts_more_than_24_bits :
  ~ (forall s v, hex_value s = Some v -> 2 ^ 24 <= v ->
                 exists e, snd (Hex2RGB s) = Some e).
Proof.
  intros H.
  destruct (H "1000000"%string (2 ^ 24)) as [e He];
    [reflexivity | lia |].
  vm_compute in He. discriminate He.
Qed.

(** C4, amended. [Hex2RGB] reads its input in base 16; for a non-empty
    string of hexadecimal digits whose value is below [2 ^ 32] it
    returns, without error, Red = bits 16-23, Green = bits 8-15 and
    Blue = bits 0-7 of the value (bits 24-31 are dropped); for every
    other string (empty, a character that is not a hexadecimal digit,
    a value of [2 ^ 32] or more) it returns the zero colour and an
    error. In particular ["1a2b3c"] gives (0x1a, 0x2b, 0x3c). *)
Theorem Hex2RGB_spec (s : string) :
  match hex_value s with
  | Some v =>
      if v <? 2 ^ 32
      then exists rgb, Hex2RGB s = (rgb, None) /\
                       bit_field v 16 (Red rgb) /\
                       bit_field v 8 (Green rgb) /\
                       bit_field v 0 (Blue rgb)
      else exists e, Hex2RGB s = (RGB_zero, Some e)
  | None => exists e, Hex2RGB s = (RGB_zero, Some e)
  end /\
  Hex2RGB "1a2b3c" = (mkRGB 26 43 60, None) /\
  Hex2RGB "ff1a2b3c" = (mkRGB 26 43 60, None).
Proof.
  split; [| split; reflexivity].
  pose proof (ParseUint_16_32_spec s) as H.
  unfold Hex2RGB.
  destruct (hex_value s) as [v |].
  - destruct (v <? 2 ^ 32).
    + rewrite H. eexists. split; [reflexivity |]. simpl.
      rewrite !land_255.
      replace (uint8 (Z.shiftr v 8 mod 2 ^ 8)) with (uint8 (Z.shiftr v 8))
        by (unfold uint8; now rewrite Z.mod_mod by lia).
      replace (uint8 (v mod 2 ^ 8)) with (uint8 v)
        by (unfold uint8; now rewrite Z.mod_mod by lia).
      split; [| split].
      * apply uint8_bit_field; lia.
      * apply (uint8_bit_field v 8); lia.
      * pose proof (uint8_bit_field v 0) as H0.
        rewrite Z.shiftr_0_r in H0. apply H0; lia.
    + destruct H as (x & e & ->). exists e. reflexivity.
  - destruct H as (x & e & ->). exists e. reflexivity.
Qed.

(** ** Facts on the float model *)

Lemma SFcompare_antisym (x y : spec_float) :
  SFcompare y x = option_map CompOpp (SFcompare x y).
Proof.
  destruct x as [sx | sx | | sx mx ex], y as [sy | sy | | sy my ey];
    try destruct sx; try destruct sy; simpl; try reflexivity.
  - rewrite (Z.compare_antisym ex ey).
    destruct (ex ?= ey); simpl; try reflexivity.
    pose proof (Pos.compare_cont_antisym my mx Eq) as H. simpl in H.
    rewrite <- H. now destruct (Pos.compare_cont Eq my mx).
  - rewrite (Z.compare_antisym ex ey).
    destruct (ex ?= ey); simpl; try reflexivity.
    pose proof (Pos.compare_cont_antisym my mx Eq) as H. simpl in H.
    rewrite <- H. now destruct (Pos.compare_cont Eq my mx).
Qed.

Lemma SFcompare_not_nan (x y : spec_float) :
  F64.is_nan x = false -> F64.is_nan y = false ->
  exists c, SFcompare x y = Some c.
Proof.
  destruct x, y; simpl; intros; try discriminate; eexists; reflexivity.
Qed.

Lemma SFcompare_refl (x : spec_float) :
  F64.is_nan x = false -> SFcompare x x = Some Eq.
Proof.
  destruct x as [s | s | | s m e]; simpl; intros; try discriminate;
    try (destruct s; reflexivity).
  rewrite Z.compare_refl.
  assert (H1 : Pos.compare_cont Eq m m = Eq) by apply Pos.compare_refl.
  rewrite H1. now destruct s.
Qed.

Lemma digits2_pos_size (p : positive) : digits2_pos p = Pos.size p.
Proof. induction p; simpl; congruence. Qed.

Lemma Zdigits2_log2 (z : Z) : 0 < z -> Zdigits2 z = Z.log2 z + 1.
Proof.
  destruct z as [| p | p]; try lia. intros _.
  simpl. rewrite digits2_pos_size.
  destruct p; simpl; lia.
Qed.

Lemma shr_record_of_loc_m (m : Z) (l : location) :
  shr_m (shr_record_of_loc m l) = m.
Proof. destruct l as [| []]; reflexivity. Qed.

Lemma shr_1_m (r : shr_record) :
  0 <= shr_m r -> shr_m (shr_1 r) = shr_m r / 2.
Proof.
  destruct r as [m b s]. simpl. intros Hm.
  rewrite <- Z.div2_div.
  destruct m as [| p | p]; [reflexivity | destruct p; reflexivity | lia].
Qed.

Lemma iter_shr_1_m (p : positive) :
  forall r, 0 <= shr_m r ->
            shr_m (SpecFloat.iter_pos shr_1 p r) = shr_m r / 2 ^ Z.pos p.
Proof.
  induction p as [p IH | p IH |]; intros r Hr; simpl SpecFloat.iter_pos.
  - assert (H1 : 0 <= shr_m (shr_1 r))
      by (rewrite shr_1_m by assumption; apply Z.div_pos; lia).
    assert (H2 : 0 <= shr_m (SpecFloat.iter_pos shr_1 p (shr_1 r)))
      by (rewrite IH by assumption; apply Z.div_pos; lia).
    rewrite IH, IH, shr_1_m by assumption.
    rewrite !Z.div_div by lia.
    f_equal.
    replace (Z.pos p~1) with (1 + Z.pos p + Z.pos p) by lia.
    rewrite !Z.pow_add_r by lia. rewrite Z.pow_1_r. ring.
  - assert (H2 : 0 <= shr_m (SpecFloat.iter_pos shr_1 p r))
      by (rewrite IH by assumption; apply Z.div_pos; lia).
    rewrite IH, IH by assumption.
    rewrite Z.div_div by lia.
    f_equal.
    replace (Z.pos p~0) with (Z.pos p + Z.pos p) by lia.
    rewrite Z.pow_add_r by lia. reflexivity.
  - rewrite shr_1_m by assumption. reflexivity.
Qed.

Lemma Zdigits2_bounds (z : Z) :
  0 < z -> 2 ^ (Zdigits2 z - 1) <= z < 2 ^ Zdigits2 z.
Proof.
  intros Hz. rewrite Zdigits2_log2 by assumption.
  replace (Z.log2 z + 1 - 1) with (Z.log2 z) by lia.
  replace (Z.log2 z + 1) with (Z.succ (Z.log2 z)) by lia.
  apply Z.log2_spec. assumption.
Qed.

Lemma Zdigits2_le (a b : Z) : 0 < a -> a <= b -> Zdigits2 a <= Zdigits2 b.
Proof.
  intros Ha Hab. rewrite !Zdigits2_log2 by lia.
  pose proof (Z.log2_le_mono a b Hab). lia.
Qed.

Lemma Zdigits2_succ (a : Z) : 0 < a -> Zdigits2 (a + 1) <= Zdigits2 a + 1.
Proof.
  intros Ha. rewrite !Zdigits2_log2 by lia.
  pose proof (Z.log2_succ_le a). unfold Z.succ in *. lia.
Qed.

Lemma round_nearest_even_bounds (m : Z) (l : location) :
  m <= round_nearest_even m l <= m + 1.
Proof.
  destruct l as [| []]; simpl; try lia.
  destruct (Z.even m); lia.
Qed.

Section Rounding.

Variables prec emax : Z.
Hypothesis Hprec : 0 < prec.

Lemma shr_fexp_nonneg (m e : Z) (l : location) :
  0 <= m -> 0 <= shr_m (fst (shr_fexp prec emax m e l)).
Proof.
  intros Hm. unfold shr_fexp, shr.
  destruct (fexp prec emax (Zdigits2 m + e) - e) as [| p | p]; simpl;
    rewrite ?iter_shr_1_m; rewrite ?shr_record_of_loc_m; try lia.
  apply Z.div_pos; lia.
Qed.

Lemma shr_fexp_pos (m e : Z) (l : location) :
  0 < m -> emin prec emax <= e ->
  0 < shr_m (fst (shr_fexp prec emax m e l)) <= m /\
  e <= snd (shr_fexp prec emax m e l) <= e + Zdigits2 m.
Proof.
  intros Hm He. unfold shr_fexp, shr.
  pose proof (Zdigits2_bounds m Hm) as [Hlo Hhi].
  assert (Hd : 1 <= Zdigits2 m)
    by (rewrite Zdigits2_log2 by lia; pose proof (Z.log2_nonneg m); lia).
  destruct (fexp prec emax (Zdigits2 m + e) - e) as [| p | p] eqn:Hn;
    simpl; rewrite ?shr_record_of_loc_m; try lia.
  rewrite iter_shr_1_m by (rewrite shr_record_of_loc_m; lia).
  rewrite shr_record_of_loc_m.
  unfold fexp in Hn.
  assert (Hp : Z.pos p <= Zdigits2 m - 1) by lia.
  assert (H2 : 2 ^ Z.pos p <= m).
  { apply Z.le_trans with (2 ^ (Zdigits2 m - 1)); [| assumption].
    apply Z.pow_le_mono_r; lia. }
  repeat split; try lia.
  - apply Z.div_str_pos. lia.
  - apply Z.div_le_upper_bound; [lia |].
    assert (1 <= 2 ^ Z.pos p) by lia. nia.
Qed.

Lemma binary_round_aux_not_nan (s : bool) (m e : Z) (l : location) :
  0 <= m -> F64.is_nan (binary_round_aux prec emax s m e l) = false.
Proof.
  intros Hm. unfold binary_round_aux.
  pose proof (shr_fexp_nonneg m e l Hm) as H1.
  destruct (shr_fexp prec emax m e l) as [r1 e1]. simpl in H1.
  pose proof (round_nearest_even_bounds (shr_m r1) (loc_of_shr_record r1))
    as H2.
  pose proof (shr_fexp_nonneg (round_nearest_even (shr_m r1)
                                 (loc_of_shr_record r1)) e1 loc_Exact) as H3.
  destruct (shr_fexp prec emax _ e1 loc_Exact) as [r2 e2]. simpl in H3.
  destruct (shr_m r2) as [| p | p]; try reflexivity.
  - now destruct (e2 <=? emax - prec).
  - lia.
Qed.

Lemma binary_round_aux_finite (s : bool) (m e : Z) (l : location) :
  0 < m -> emin prec emax <= e ->
  e + 2 * Zdigits2 m + 1 <= emax - prec ->
  exists m' e', binary_round_aux prec emax s m e l = S754_finite s m' e'.
Proof.
  intros Hm He Hmax. unfold binary_round_aux.
  pose proof (shr_fexp_pos m e l Hm He) as [H1 H1e].
  destruct (shr_fexp prec emax m e l) as [r1 e1]. simpl in H1, H1e.
  pose proof (round_nearest_even_bounds (shr_m r1) (loc_of_shr_record r1))
    as H2.
  set (m2 := round_nearest_even (shr_m r1) (loc_of_shr_record r1)) in *.
  assert (Hm2 : 0 < m2) by lia.
  assert (He1 : emin prec emax <= e1) by lia.
  pose proof (shr_fexp_pos m2 e1 loc_Exact Hm2 He1) as [H3 H3e].
  destruct (shr_fexp prec emax m2 e1 loc_Exact) as [r2 e2].
  simpl in H3, H3e.
  assert (Hd2 : Zdigits2 m2 <= Zdigits2 m + 1).
  { apply Z.le_trans with (Zdigits2 (m + 1)).
    - apply Zdigits2_le; lia.
    - apply Zdigits2_succ; lia. }
  destruct (shr_m r2) as [| p | p]; try lia.
  destruct (Z.leb_spec e2 (emax - prec)); [| lia].
  eexists _, _; reflexivity.
Qed.

End Rounding.

Lemma digits2_iter_xO (p d : positive) :
  Z.pos (digits2_pos (Pos.iter xO p d)) = Z.pos (digits2_pos p) + Z.pos d.
Proof.
  induction d as [| d IH] using Pos.peano_ind.
  - simpl. lia.
  - rewrite Pos.iter_succ. simpl digits2_pos. lia.
Qed.

Lemma of_int_not_nan (n : Z) : F64.is_nan (F64.of_int n) = false.
Proof.
  unfold F64.of_int, binary_normalize.
  destruct n as [| p | p]; [reflexivity | |]; unfold binary_round;
    destruct (shl_align _ _ _) as [mz ez];
    apply binary_round_aux_not_nan; lia.
Qed.

Lemma of_int_pos_finite (n : Z) :
  0 < n < 2 ^ 63 -> exists m e, F64.of_int n = S754_finite false m e.
Proof.
  intros [Hn Hlt]. destruct n as [| p | p]; try lia.
  assert (Hd : Z.pos (digits2_pos p) <= 63).
  { change (Z.pos (digits2_pos p)) with (Zdigits2 (Z.pos p)).
    rewrite Zdigits2_log2 by lia.
    assert (Z.log2 (Z.pos p) < 63) by (apply Z.log2_lt_pow2; lia). lia. }
  unfold F64.of_int, binary_normalize, binary_round, shl_align.
  unfold F64.prec, F64.emax.
  destruct (fexp 53 1024 (Z.pos (digits2_pos p) + 0) - 0) as [| q | q] eqn:Hq;
    unfold fexp, emin in *.
  - apply binary_round_aux_finite; unfold emin; simpl Zdigits2; lia.
  - apply binary_round_aux_finite; unfold emin; simpl Zdigits2; lia.
  - apply binary_round_aux_finite; unfold emin; simpl Zdigits2;
      rewrite ?digits2_iter_xO; lia.
Qed.

Lemma div_finite_not_nan (x : float64) (s : bool) (m : positive) (e : Z) :
  F64.is_nan x = false ->
  F64.is_nan (F64.div x (S754_finite s m e)) = false.
Proof.
  destruct x as [sx | sx | | sx mx ex]; simpl; intros Hx;
    try reflexivity; try discriminate.
  unfold F64.div, SFdiv, SFdiv_core_binary.
  set (m' := match _ - _ - _ with
             | 0 => Z.pos mx
             | Z.pos _ => Z.shiftl (Z.pos mx) _
             | Z.neg _ => 0
             end).
  assert (Hm' : 0 <= m').
  { subst m'. destruct (_ - _ - _); try lia. apply Z.shiftl_nonneg. lia. }
  assert (Hq : 0 <= fst (Z.div_eucl m' (Z.pos m)))
    by (apply (Z.div_pos m' (Z.pos m)); lia).
  destruct (Z.div_eucl m' (Z.pos m)) as [q r]. simpl in Hq.
  apply binary_round_aux_not_nan. assumption.
Qed.

(** The quotient of two converted integers, the divisor positive. *)
Lemma quotient_not_nan (a b : Z) :
  0 < b < 2 ^ 63 -> F64.is_nan (F64.div (F64.of_int a) (F64.of_int b)) = false.
Proof.
  intros Hb. destruct (of_int_pos_finite b Hb) as (m & e & ->).
  apply div_finite_not_nan, of_int_not_nan.
Qed.

Lemma leb_refl (x : float64) : F64.is_nan x = false -> F64.leb x x = true.
Proof.
  intros H. unfold F64.leb, SFleb. now rewrite SFcompare_refl.
Qed.

Lemma leb_of_not_gtb (x y : float64) :
  F64.is_nan x = false -> F64.is_nan y = false ->
  F64.gtb x y = false -> F64.leb x y = true.
Proof.
  intros Hx Hy. unfold F64.gtb, F64.leb, SFltb, SFleb.
  rewrite (SFcompare_antisym x y).
  destruct (SFcompare_not_nan x y Hx Hy) as [c ->].
  destruct c; simpl; congruence.
Qed.

Lemma leb_of_gtb (x y : float64) : F64.gtb x y = true -> F64.leb y x = true.
Proof.
  unfold F64.gtb, F64.leb, SFltb, SFleb.
  destruct (SFcompare y x) as [[] |]; congruence.
Qed.

Lemma leb_pinf (x : float64) :
  F64.is_nan x = false -> F64.leb x (S754_infinity false) = true.
Proof.
  destruct x as [s | [] | | [] m e]; intros H;
    try discriminate H; reflexivity.
Qed.

(** [math.Max] on two numbers is one of them and is above both. *)
Lemma Max_is_max (x y : float64) :
  F64.is_nan x = false -> F64.is_nan y = false ->
  (math.Max x y = x \/ math.Max x y = y) /\
  F64.leb x (math.Max x y) = true /\ F64.leb y (math.Max x y) = true.
Proof.
  intros Hx Hy. unfold math.Max.
  destruct (F64.is_pinf x) eqn:Hpx; simpl.
  { destruct x as [| [] | |]; try discriminate.
    repeat split; auto using leb_pinf. }
  destruct (F64.is_pinf y) eqn:Hpy; simpl.
  { destruct y as [| [] | |]; try discriminate.
    repeat split; auto using leb_pinf. }
  rewrite Hx, Hy. simpl.
  destruct (F64.eqb x (S754_zero false) && F64.eqb x y) eqn:Hz.
  { apply andb_prop in Hz as [Hz1 Hz2].
    assert (Hxy : F64.leb x y = true /\ F64.leb y x = true).
    { unfold F64.eqb, F64.leb, SFeqb, SFleb in *.
      rewrite (SFcompare_antisym x y).
      destruct (SFcompare x y) as [[] |]; try discriminate. now split. }
    destruct Hxy as [Hxy Hyx].
    destruct (F64.signbit x); repeat split; auto using leb_refl. }
  destruct (F64.gtb x y) eqn:Hg.
  - repeat split; auto using leb_refl, leb_of_gtb.
  - repeat split; auto using leb_refl, leb_of_not_gtb.
Qed.

(** A finite number divided by itself is exactly one. *)
Lemma div_self (s : bool) (m : positive) (e : Z) :
  F64.div (S754_finite s m e) (S754_finite s m e) = F64.of_int 1.
Proof.
  unfold F64.div, SFdiv, SFdiv_core_binary.
  replace (Zdigits2 (Z.pos m) + e - (Zdigits2 (Z.pos m) + e)) with 0 by lia.
  replace (e - e) with 0 by lia.
  unfold F64.prec, F64.emax.
  change (Z.min (fexp 53 1024 0) 0) with (-53).
  change (0 - -53) with 53.
  assert (H : Z.div_eucl (Z.shiftl (Z.pos m) 53) (Z.pos m) = (2 ^ 53, 0)).
  { rewrite Z.shiftl_mul_pow2 by lia.
    pose proof (Z.div_eucl_eq (Z.pos m * 2 ^ 53) (Z.pos m)) as Heq.
    pose proof (Z.mod_pos_bound (Z.pos m * 2 ^ 53) (Z.pos m)) as Hb.
    unfold Z.modulo, Z.div in *.
    destruct (Z.div_eucl (Z.pos m * 2 ^ 53) (Z.pos m)) as [q r].
    assert (Hq : q = 2 ^ 53) by nia.
    f_equal; nia. }
  cbv iota.
  change (IntDef.Z.div_eucl (IntDef.Z.shiftl (Z.pos m) 53) (Z.pos m))
    with (Z.div_eucl (Z.shiftl (Z.pos m) 53) (Z.pos m)).
  rewrite H.
  assert (Hl : new_location (Z.pos m) 0 = loc_Exact)
    by (unfold new_location; destruct (Z.even (Z.pos m)); reflexivity).
  rewrite Hl. destruct s; reflexivity.
Qed.

Lemma scalingFactor_same_size (w h : Z) :
  0 < w < 2 ^ 63 -> 0 < h < 2 ^ 63 ->
  scalingFactor w h w h = F64.of_int 1.
Proof.
  intros Hw Hh. unfold scalingFactor.
  destruct (of_int_pos_finite w Hw) as (mw & ew & ->).
  destruct (of_int_pos_finite h Hh) as (mh & eh & ->).
  rewrite !div_self. reflexivity.
Qed.

(** ** Exact quotients *)

Lemma Zdigits2_53 (m : Z) : 2 ^ 52 <= m < 2 ^ 53 -> Zdigits2 m = 53.
Proof.
  intros H. rewrite Zdigits2_log2 by lia.
  rewrite (Z.log2_unique m 52); lia.
Qed.

Lemma Zdigits2_54 (m : Z) : 2 ^ 53 <= m < 2 ^ 54 -> Zdigits2 m = 54.
Proof.
  intros H. rewrite Zdigits2_log2 by lia.
  rewrite (Z.log2_unique m 53); lia.
Qed.

Lemma loc_of_shr_record_of_loc (m : Z) (l : location) :
  loc_of_shr_record (shr_record_of_loc m l) = l.
Proof. destruct l as [| []]; reflexivity. Qed.

(** Rounding a 53-bit mantissa that does not carry. *)
Lemma binary_round_aux_53 (m e : Z) (l : location) :
  2 ^ 52 <= m -> round_nearest_even m l < 2 ^ 53 ->
  -1074 <= e <= 971 ->
  binary_round_aux 53 1024 false m e l
  = S754_finite false (Z.to_pos (round_nearest_even m l)) e.
Proof.
  intros Hm Hr He.
  pose proof (round_nearest_even_bounds m l) as Hb.
  unfold binary_round_aux, shr_fexp, shr, fexp, emin.
  rewrite (Zdigits2_53 m) by lia.
  replace (Z.max (53 + e - 53) (3 - 1024 - 53) - e) with 0 by lia.
  rewrite shr_record_of_loc_m, loc_of_shr_record_of_loc.
  rewrite (Zdigits2_53 (round_nearest_even m l)) by lia.
  replace (Z.max (53 + e - 53) (3 - 1024 - 53) - e) with 0 by lia.
  simpl shr_m.
  destruct (round_nearest_even m l) as [| p | p] eqn:Hp; try lia.
  destruct (Z.leb_spec e (1024 - 53)); [reflexivity | lia].
Qed.

Lemma shr_1_pos (m : Z) (r s : bool) :
  0 < m ->
  shr_1 (Build_shr_record m r s)
  = Build_shr_record (m / 2) (Z.odd m) (r || s).
Proof.
  intros Hm. rewrite <- Z.div2_div.
  destruct m as [| p | p]; try lia. destruct p; reflexivity.
Qed.

Lemma loc_half_even (q : Z) (l : location) :
  0 < q -> Z.odd q = false ->
  round_nearest_even (q / 2) (loc_half q l) = q / 2.
Proof.
  intros Hq Ho. unfold loc_half.
  destruct l as [| []]; simpl shr_record_of_loc;
    rewrite shr_1_pos by assumption; rewrite Ho; reflexivity.
Qed.

Lemma loc_half_odd_inexact (q : Z) (c : comparison) :
  0 < q -> Z.odd q = true ->
  round_nearest_even (q / 2) (loc_half q (loc_Inexact c)) = q / 2 + 1.
Proof.
  intros Hq Ho. unfold loc_half.
  destruct c; simpl shr_record_of_loc;
    rewrite shr_1_pos by assumption; rewrite Ho; reflexivity.
Qed.

(** Rounding a 54-bit mantissa that does not carry. *)
Lemma binary_round_aux_54 (q e : Z) (l : location) :
  2 ^ 53 <= q < 2 ^ 54 ->
  round_nearest_even (q / 2) (loc_half q l) < 2 ^ 53 ->
  -1075 <= e <= 970 ->
  binary_round_aux 53 1024 false q e l
  = S754_finite false
      (Z.to_pos (round_nearest_even (q / 2) (loc_half q l))) (e + 1).
Proof.
  intros Hq Hr He.
  pose proof (round_nearest_even_bounds (q / 2) (loc_half q l)) as Hb.
  assert (Hq2 : 2 ^ 52 <= q / 2 < 2 ^ 53).
  { split.
    - apply Z.div_le_lower_bound; lia.
    - apply Z.div_lt_upper_bound; lia. }
  unfold binary_round_aux, shr_fexp, shr, fexp, emin.
  rewrite (Zdigits2_54 q) by lia.
  replace (Z.max (54 + e - 53) (3 - 1024 - 53) - e) with 1 by lia.
  simpl SpecFloat.iter_pos.
  assert (Hm1 : shr_m (shr_1 (shr_record_of_loc q l)) = q / 2).
  { rewrite shr_1_m by (rewrite shr_record_of_loc_m; lia).
    now rewrite shr_record_of_loc_m. }
  rewrite Hm1. fold (loc_half q l).
  rewrite (Zdigits2_53 (round_nearest_even (q / 2) (loc_half q l))) by lia.
  replace (Z.max (53 + (e + 1) - 53) (3 - 1024 - 53) - (e + 1)) with 0 by lia.
  rewrite shr_record_of_loc_m.
  destruct (round_nearest_even (q / 2) (loc_half q l)) as [| p | p] eqn:Hp;
    try lia.
  destruct (Z.leb_spec (e + 1) (1024 - 53)); [reflexivity | lia].
Qed.

(** The division of two floats with 53-bit mantissas, before rounding. *)
Lemma div_canonical (ma mb : positive) (ea eb : Z) :
  2 ^ 52 <= Z.pos ma < 2 ^ 53 -> 2 ^ 52 <= Z.pos mb < 2 ^ 53 ->
  -1000 <= ea - eb <= 1000 ->
  F64.div (S754_finite false ma ea) (S754_finite false mb eb)
  = binary_round_aux 53 1024 false
      (Z.pos ma * 2 ^ 53 / Z.pos mb) (ea - eb - 53)
      (new_location (Z.pos mb) ((Z.pos ma * 2 ^ 53) mod Z.pos mb)).
Proof.
  intros Ha Hb He.
  unfold F64.div, SFdiv, SFdiv_core_binary, F64.prec, F64.emax.
  rewrite (Zdigits2_53 (Z.pos ma)), (Zdigits2_53 (Z.pos mb)) by assumption.
  unfold fexp, emin.
  replace (Z.min (Z.max (53 + ea - (53 + eb) - 53) (3 - 1024 - 53)) (ea - eb))
    with (ea - eb - 53) by lia.
  replace (ea - eb - (ea - eb - 53)) with 53 by lia.
  cbv iota.
  change (IntDef.Z.shiftl (Z.pos ma) 53) with (Z.shiftl (Z.pos ma) 53).
  rewrite Z.shiftl_mul_pow2 by lia.
  change (IntDef.Z.div_eucl (Z.pos ma * 2 ^ 53) (Z.pos mb))
    with (Z.div_eucl (Z.pos ma * 2 ^ 53) (Z.pos mb)).
  unfold Z.div, Z.modulo.
  destruct (Z.div_eucl (Z.pos ma * 2 ^ 53) (Z.pos mb)) as [q r].
  reflexivity.
Qed.

Lemma pos_iter_xO (p n : positive) :
  Z.pos (Pos.iter xO p n) = Z.pos p * 2 ^ Z.pos n.
Proof.
  induction n as [| n IH] using Pos.peano_ind.
  - simpl. lia.
  - rewrite Pos.iter_succ, Pos2Z.inj_xO, IH, Pos2Z.inj_succ.
    rewrite Z.pow_succ_r by lia. ring.
Qed.

(** An integer below [2 ^ 53] converts without rounding, to a 53-bit
    mantissa. *)
Lemma of_int_exact (a : Z) :
  0 < a < 2 ^ 53 ->
  exists m e, F64.of_int a = S754_finite false m e /\
              2 ^ 52 <= Z.pos m < 2 ^ 53 /\ -52 <= e <= 0 /\
              Z.pos m = a * 2 ^ (- e).
Proof.
  intros [Ha Hlt]. destruct a as [| p | p]; try lia.
  pose proof (Zdigits2_bounds (Z.pos p) Ha) as [Hlo Hhi].
  assert (Hd : 1 <= Z.pos (digits2_pos p) <= 53).
  { change (Z.pos (digits2_pos p)) with (Zdigits2 (Z.pos p)).
    rewrite Zdigits2_log2 by lia.
    assert (Z.log2 (Z.pos p) < 53) by (apply Z.log2_lt_pow2; lia).
    pose proof (Z.log2_nonneg (Z.pos p)). lia. }
  simpl Zdigits2 in Hlo, Hhi.
  unfold F64.of_int, binary_normalize, binary_round, shl_align.
  unfold F64.prec, F64.emax, fexp, emin.
  destruct (Z.max (Z.pos (digits2_pos p) + 0 - 53) (3 - 1024 - 53) - 0)
    as [| q | q] eqn:Hq; try lia.
  - assert (Hd53 : Z.pos (digits2_pos p) = 53) by lia.
    rewrite Hd53 in Hlo, Hhi.
    exists p, 0. split.
    + rewrite binary_round_aux_53; simpl round_nearest_even; try lia.
      reflexivity.
    + repeat split; simpl; lia.
  - assert (Hq' : Z.pos q = 53 - Z.pos (digits2_pos p)) by lia.
    replace (Z.max (Z.pos (digits2_pos p) + 0 - 53) (3 - 1024 - 53))
      with (- Z.pos q) by lia.
    assert (Hv : Z.pos (Pos.iter xO p q) = Z.pos p * 2 ^ Z.pos q)
      by apply pos_iter_xO.
    assert (Hb : 2 ^ 52 <= Z.pos (Pos.iter xO p q) < 2 ^ 53).
    { rewrite Hv. split.
      - replace 52 with ((Z.pos (digits2_pos p) - 1) + Z.pos q) by lia.
        rewrite Z.pow_add_r by lia.
        apply Z.mul_le_mono_nonneg_r; lia.
      - replace 53 with (Z.pos (digits2_pos p) + Z.pos q) by lia.
        rewrite Z.pow_add_r by lia.
        apply Z.mul_lt_mono_pos_r; lia. }
    exists (Pos.iter xO p q), (- Z.pos q). split.
    + rewrite binary_round_aux_53; simpl round_nearest_even; try lia.
      reflexivity.
    + repeat split; try lia.
      rewrite Hv. now rewrite Z.opp_involutive.
Qed.

Lemma SFcompare_finite_pos (m1 m2 : positive) (e1 e2 : Z) :
  SFcompare (S754_finite false m1 e1) (S754_finite false m2 e2)
  = Some match e1 ?= e2 with
         | Lt => Lt
         | Gt => Gt
         | Eq => Pos.compare m1 m2
         end.
Proof. reflexivity. Qed.

Lemma of_int_one :
  exists c, F64.of_int 1 = S754_finite false c (-52) /\ Z.pos c = 2 ^ 52.
Proof. eexists. split; vm_compute; reflexivity. Qed.

Lemma compare_one (m : positive) (e : Z) :
  2 ^ 52 <= Z.pos m < 2 ^ 53 ->
  SFcompare (S754_finite false m e) (F64.of_int 1)
  = Some (if e <? -52 then Lt
          else if -52 <? e then Gt
          else if Z.pos m =? 2 ^ 52 then Eq else Gt).
Proof.
  intros Hm. destruct of_int_one as (c & -> & Hc).
  rewrite SFcompare_finite_pos.
  destruct (Z.compare_spec e (-52)) as [He | He | He];
    destruct (Z.ltb_spec e (-52)); destruct (Z.ltb_spec (-52) e); try lia;
    try reflexivity.
  destruct (Pos.compare_spec m c) as [Hmc | Hmc | Hmc];
    destruct (Z.eqb_spec (Z.pos m) (2 ^ 52)); try reflexivity; try lia.
Qed.

Lemma new_location_eq (b r : Z) :
  new_location b r
  = if Z.even b
    then (if r =? 0 then loc_Exact else loc_Inexact (2 * r ?= b))
    else (if r =? 0 then loc_Exact
          else loc_Inexact match 2 * r + 1 ?= b with
                           | Gt => Gt
                           | _ => Lt
                           end).
Proof.
  unfold new_location.
  change (IntDef.Z.even b) with (Z.even b).
  destruct (Z.even b); reflexivity.
Qed.

Lemma new_location_inexact (b r : Z) :
  r <> 0 -> exists c, new_location b r = loc_Inexact c.
Proof.
  intros Hr. rewrite new_location_eq.
  destruct (Z.eqb_spec r 0) as [| _]; [contradiction |].
  destruct (Z.even b); eexists; reflexivity.
Qed.

Lemma new_location_above_half (b r : Z) :
  0 < r -> b < 2 * r -> new_location b r = loc_Inexact Gt.
Proof.
  intros Hr Hb. rewrite new_location_eq.
  destruct (Z.eqb_spec r 0) as [| _]; [lia |].
  assert (H1 : (2 * r ?= b) = Gt) by (apply Z.compare_gt_iff; lia).
  assert (H2 : (2 * r + 1 ?= b) = Gt) by (apply Z.compare_gt_iff; lia).
  rewrite H1, H2. now destruct (Z.even b).
Qed.

Lemma odd_half (q : Z) : q = 2 * (q / 2) + (if Z.odd q then 1 else 0).
Proof. rewrite <- Z.div2_div. apply Zdiv2_odd_eqn. Qed.

(** The quotient of two floats with 53-bit mantissas, the dividend's
    mantissa the smaller one. *)
Lemma div_mantissa_lt (ma mb : positive) (ea eb : Z) :
  2 ^ 52 <= Z.pos ma < 2 ^ 53 -> 2 ^ 52 <= Z.pos mb < 2 ^ 53 ->
  -52 <= ea <= 0 -> -52 <= eb <= 0 ->
  Z.pos ma < Z.pos mb ->
  exists m, F64.div (S754_finite false ma ea) (S754_finite false mb eb)
            = S754_finite false m (ea - eb - 53) /\
            2 ^ 52 < Z.pos m < 2 ^ 53.
Proof.
  intros Ha Hb Hea Heb Hlt.
  rewrite div_canonical by lia.
  set (A := Z.pos ma) in *. set (B := Z.pos mb) in *.
  pose proof (Z.div_mod (A * 2 ^ 53) B ltac:(lia)) as Hdm.
  pose proof (Z.mod_pos_bound (A * 2 ^ 53) B ltac:(lia)) as Hr.
  set (Q := A * 2 ^ 53 / B) in *. set (R := (A * 2 ^ 53) mod B) in *.
  assert (HQlo : 2 ^ 52 <= Q) by (subst Q; apply Z.div_le_lower_bound; lia).
  assert (HQhi : Q < 2 ^ 53 - 1)
    by (subst Q; apply Z.div_lt_upper_bound; lia).
  pose proof (round_nearest_even_bounds Q (new_location B R)) as Hrb.
  rewrite binary_round_aux_53 by lia.
  eexists. split; [reflexivity |].
  rewrite Z2Pos.id by lia.
  split; [| lia].
  destruct (Z.eq_dec Q (2 ^ 52)) as [HQ | HQ]; [| lia].
  rewrite new_location_above_half; [simpl; lia | lia | lia].
Qed.

(** The same, the dividend's mantissa the larger one or the same. *)
Lemma div_mantissa_ge (ma mb : positive) (ea eb : Z) :
  2 ^ 52 <= Z.pos ma < 2 ^ 53 -> 2 ^ 52 <= Z.pos mb < 2 ^ 53 ->
  -52 <= ea <= 0 -> -52 <= eb <= 0 ->
  Z.pos mb <= Z.pos ma ->
  exists m, F64.div (S754_finite false ma ea) (S754_finite false mb eb)
            = S754_finite false m (ea - eb - 52) /\
            2 ^ 52 <= Z.pos m < 2 ^ 53 /\
            (Z.pos m = 2 ^ 52 <-> Z.pos ma = Z.pos mb).
Proof.
  intros Ha Hb Hea Heb Hge.
  rewrite div_canonical by lia.
  set (A := Z.pos ma) in *. set (B := Z.pos mb) in *.
  pose proof (Z.div_mod (A * 2 ^ 53) B ltac:(lia)) as Hdm.
  pose proof (Z.mod_pos_bound (A * 2 ^ 53) B ltac:(lia)) as Hr.
  set (Q := A * 2 ^ 53 / B) in *. set (R := (A * 2 ^ 53) mod B) in *.
  assert (HQlo : 2 ^ 53 <= Q) by (subst Q; apply Z.div_le_lower_bound; lia).
  assert (HQhi : Q < 2 ^ 54 - 1)
    by (subst Q; apply Z.div_lt_upper_bound; lia).
  set (l := new_location B R) in *.
  pose proof (round_nearest_even_bounds (Q / 2) (loc_half Q l)) as Hrb.
  pose proof (odd_half Q) as Hodd.
  assert (Hq2 : 2 ^ 52 <= Q / 2)
    by (apply Z.div_le_lower_bound; lia).
  assert (Hm2 : round_nearest_even (Q / 2) (loc_half Q l) < 2 ^ 53).
  { destruct (Z.odd Q) eqn:Ho.
    - lia.
    - rewrite loc_half_even by (assumption || lia). lia. }
  rewrite binary_round_aux_54 by lia.
  replace (ea - eb - 53 + 1) with (ea - eb - 52) by lia.
  eexists. split; [reflexivity |].
  rewrite Z2Pos.id by lia.
  split; [lia |].
  split.
  - intros Hm. destruct (Z.eq_dec A B) as [| Hne]; [assumption | exfalso].
    assert (HQ1 : 2 ^ 53 + 1 <= Q)
      by (subst Q; apply Z.div_le_lower_bound; lia).
    destruct (Z.odd Q) eqn:Ho.
    + try rewrite Ho in Hodd.
      assert (HQv : Q = 2 ^ 53 + 1) by lia.
      rewrite HQv in Hdm.
      assert (HR : R <> 0) by lia.
      destruct (new_location_inexact B R HR) as [c Hc].
      fold l in Hc. rewrite Hc in Hm.
      rewrite loc_half_odd_inexact in Hm by (assumption || lia). lia.
    + rewrite loc_half_even in Hm by (assumption || lia). lia.
  - intros HAB.
    assert (HQ : Q = 2 ^ 53).
    { subst Q. rewrite HAB. rewrite Z.mul_comm. apply Z.div_mul. lia. }
    rewrite loc_half_even; rewrite HQ; reflexivity || lia.
Qed.

Lemma pow2_le (n m : Z) : 0 <= n <= m -> 0 < 2 ^ n <= 2 ^ m.
Proof.
  intros H. split; [apply Z.pow_pos_nonneg; lia |].
  apply Z.pow_le_mono_r; lia.
Qed.

Lemma pow2_lt (n m : Z) : 0 <= n < m -> 2 * 2 ^ n <= 2 ^ m.
Proof.
  intros H. rewrite <- Z.pow_succ_r by lia.
  apply Z.pow_le_mono_r; lia.
Qed.

(** The quotient of two positive integers below [2 ^ 53] compares
    with one as the dividend compares with the divisor. *)
Lemma quotient_compare_pos (a b : Z) :
  0 < a < 2 ^ 53 -> 0 < b < 2 ^ 53 ->
  SFcompare (F64.div (F64.of_int a) (F64.of_int b)) (F64.of_int 1)
  = Some (a ?= b).
Proof.
  intros Ha Hb.
  destruct (of_int_exact a Ha) as (ma & ea & -> & Hma & Hea & Hva).
  destruct (of_int_exact b Hb) as (mb & eb & -> & Hmb & Heb & Hvb).
  set (x := 2 ^ (- ea)) in *. set (y := 2 ^ (- eb)) in *.
  assert (Hx : 0 < x) by (apply Z.pow_pos_nonneg; lia).
  assert (Hy : 0 < y) by (apply Z.pow_pos_nonneg; lia).
  destruct (Z.lt_ge_cases (Z.pos ma) (Z.pos mb)) as [Hlt | Hge].
  - destruct (div_mantissa_lt ma mb ea eb) as (m & -> & Hm); try assumption.
    rewrite compare_one by lia. f_equal. symmetry.
    destruct (Z.ltb_spec (ea - eb - 53) (-52)) as [Hk | Hk].
    + apply Z.compare_lt_iff.
      assert (Hxy : y <= x) by (apply pow2_le; lia). nia.
    + assert (Hxy : 2 * x <= y) by (apply pow2_lt; lia).
      assert (Hab : b < a) by nia.
      destruct (Z.ltb_spec (-52) (ea - eb - 53)).
      * now apply Z.compare_gt_iff.
      * destruct (Z.eqb_spec (Z.pos m) (2 ^ 52)); [lia |].
        now apply Z.compare_gt_iff.
  - destruct (div_mantissa_ge ma mb ea eb) as (m & -> & Hm & Heq);
      try assumption.
    rewrite compare_one by lia. f_equal. symmetry.
    destruct (Z.ltb_spec (ea - eb - 52) (-52)) as [Hk | Hk].
    + apply Z.compare_lt_iff.
      assert (Hxy : 2 * y <= x) by (apply pow2_lt; lia). nia.
    + destruct (Z.ltb_spec (-52) (ea - eb - 52)) as [Hk' | Hk'].
      * apply Z.compare_gt_iff.
        assert (Hxy : 2 * x <= y) by (apply pow2_lt; lia). nia.
      * assert (Hee : ea = eb) by lia.
        assert (Hxy : x = y) by (subst x y; now rewrite Hee).
        destruct (Z.eqb_spec (Z.pos m) (2 ^ 52)) as [Hm52 | Hm52].
        -- apply Z.compare_eq_iff. apply Heq in Hm52. nia.
        -- apply Z.compare_gt_iff.
           assert (Z.pos ma <> Z.pos mb) by (intros E; apply Hm52, Heq, E).
           nia.
Qed.

Lemma binary_round_aux_signed (prec emax : Z) (s : bool) (m e : Z)
    (l : location) :
  0 <= m -> signed s (binary_round_aux prec emax s m e l).
Proof.
  intros Hm. unfold binary_round_aux.
  pose proof (shr_fexp_nonneg prec emax m e l Hm) as H1.
  destruct (shr_fexp prec emax m e l) as [r1 e1]. simpl in H1.
  pose proof (round_nearest_even_bounds (shr_m r1) (loc_of_shr_record r1))
    as H2.
  pose proof (shr_fexp_nonneg prec emax
                (round_nearest_even (shr_m r1) (loc_of_shr_record r1))
                e1 loc_Exact) as H3.
  destruct (shr_fexp prec emax _ e1 loc_Exact) as [r2 e2]. simpl in H3.
  destruct (shr_m r2) as [| p | p]; simpl; try lia; try exact I.
  now destruct (e2 <=? emax - prec).
Qed.

Lemma compare_negative_one (x : float64) :
  signed true x -> SFcompare x (F64.of_int 1) = Some Lt.
Proof.
  destruct of_int_one as (c & -> & _).
  destruct x as [s | s | | s m e]; simpl; intros H;
    try contradiction; try subst s; reflexivity.
Qed.

Lemma quotient_compare_nonpos (a b : Z) :
  a <= 0 -> 0 < b < 2 ^ 53 ->
  SFcompare (F64.div (F64.of_int a) (F64.of_int b)) (F64.of_int 1) = Some Lt.
Proof.
  intros Ha Hb.
  destruct (of_int_exact b Hb) as (mb & eb & -> & _).
  destruct a as [| p | p]; try lia.
  - destruct of_int_one as (c & -> & _). reflexivity.
  - apply compare_negative_one.
    assert (Hs : signed true (F64.of_int (Z.neg p))).
    { unfold F64.of_int, binary_normalize, binary_round.
      destruct (shl_align _ _ _) as [mz ez].
      apply binary_round_aux_signed. lia. }
    destruct (F64.of_int (Z.neg p)) as [s | s | | s m e]; simpl in Hs;
      try contradiction; try subst s; try exact I; try reflexivity.
    unfold F64.div, SFdiv, SFdiv_core_binary.
    set (m' := match _ - _ - _ with
               | 0 => Z.pos m
               | Z.pos _ => Z.shiftl (Z.pos m) _
               | Z.neg _ => 0
               end).
    assert (Hm' : 0 <= m').
    { subst m'. destruct (_ - _ - _); try lia. apply Z.shiftl_nonneg. lia. }
    assert (Hq : 0 <= fst (Z.div_eucl m' (Z.pos mb)))
      by (apply (Z.div_pos m' (Z.pos mb)); lia).
    destruct (Z.div_eucl m' (Z.pos mb)) as [q r]. simpl in Hq.
    apply binary_round_aux_signed. assumption.
Qed.

(** The quotient [a / b] of the converted integers compares with one
    as [a] compares with [b]. *)
Lemma quotient_compare (a b : Z) :
  a < 2 ^ 53 -> 0 < b < 2 ^ 53 ->
  SFcompare (F64.div (F64.of_int a) (F64.of_int b)) (F64.of_int 1)
  = Some (a ?= b).
Proof.
  intros Ha Hb. destruct (Z.lt_ge_cases 0 a) as [Hpos | Hneg].
  - apply quotient_compare_pos; lia.
  - rewrite quotient_compare_nonpos by lia.
    f_equal. symmetry. apply Z.compare_lt_iff. lia.
Qed.

(** *** The order of the floats that are numbers *)

Lemma lex_le_trans (p q r : Z * Z * Z) :
  lex_le p q -> lex_le q r -> lex_le p r.
Proof.
  destruct p as [[a1 b1] c1], q as [[a2 b2] c2], r as [[a3 b3] c3].
  unfold lex_le. lia.
Qed.

Lemma SFcompare_finite_neg (m1 m2 : positive) (e1 e2 : Z) :
  SFcompare (S754_finite true m1 e1) (S754_finite true m2 e2)
  = Some match e1 ?= e2 with
         | Lt => Gt
         | Gt => Lt
         | Eq => CompOpp (Pos.compare m1 m2)
         end.
Proof. reflexivity. Qed.

Lemma SFleb_key (x y : spec_float) :
  SFleb x y = true <->
  F64.is_nan x = false /\ F64.is_nan y = false /\ lex_le (key x) (key y).
Proof.
  assert (Hpos : forall m, 0 < Z.pos m) by (intros; lia).
  unfold SFleb.
  destruct x as [sx | [] | | [] mx ex], y as [sy | [] | | [] my ey];
    try rewrite SFcompare_finite_pos; try rewrite SFcompare_finite_neg;
    unfold lex_le; simpl;
    try destruct (Z.compare_spec ex ey);
    try destruct (Pos.compare_spec mx my);
    simpl;
    (split;
     [ intros Hle; try discriminate Hle; repeat split; try reflexivity; lia
     | intros (H1 & H2 & H3); try discriminate H1; try discriminate H2;
       try reflexivity; exfalso;
       try pose proof (Hpos mx); try pose proof (Hpos my); lia ]).
Qed.

Lemma SFleb_trans (x y z : spec_float) :
  SFleb x y = true -> SFleb y z = true -> SFleb x z = true.
Proof.
  rewrite !SFleb_key. intros (Hx & Hy & Hxy) (_ & Hz & Hyz).
  repeat split; try assumption. eapply lex_le_trans; eassumption.
Qed.

Lemma SFleb_of_compare (x y : spec_float) (c : comparison) :
  SFcompare x y = Some c ->
  SFleb x y = match c with Gt => false | _ => true end /\
  SFleb y x = match c with Lt => false | _ => true end.
Proof.
  intros H. unfold SFleb. rewrite (SFcompare_antisym x y), H.
  now destruct c.
Qed.

Lemma compare_some_not_nan (x y : spec_float) (c : comparison) :
  SFcompare x y = Some c -> F64.is_nan x = false /\ F64.is_nan y = false.
Proof. destruct x, y; simpl; intros H; try discriminate H; now split. Qed.

Lemma Max_compare (x y z : float64) (cx cy : comparison) :
  SFcompare x z = Some cx -> SFcompare y z = Some cy ->
  SFcompare (math.Max x y) z = Some (cmax cx cy).
Proof.
  intros Hx Hy.
  destruct (compare_some_not_nan x z cx Hx) as [Hnx _].
  destruct (compare_some_not_nan y z cy Hy) as [Hny _].
  destruct (Max_is_max x y Hnx Hny) as (HM & Hlx & Hly).
  destruct (SFleb_of_compare x z cx Hx) as [Hxz Hzx].
  destruct (SFleb_of_compare y z cy Hy) as [Hyz Hzy].
  unfold F64.leb in *.
  destruct HM as [HM | HM]; rewrite HM in *.
  - rewrite Hx. f_equal.
    destruct cx, cy; try reflexivity; exfalso.
    + pose proof (SFleb_trans y x z Hly Hxz). congruence.
    + pose proof (SFleb_trans z y x Hzy Hly). congruence.
    + pose proof (SFleb_trans z y x Hzy Hly). congruence.
  - rewrite Hy. f_equal.
    destruct cx, cy; try reflexivity; exfalso.
    + pose proof (SFleb_trans z x y Hzx Hlx). congruence.
    + pose proof (SFleb_trans x y z Hlx Hyz). congruence.
    + pose proof (SFleb_trans z x y Hzx Hlx). congruence.
Qed.

(** The factor compares with one as the larger of the two ratios
    does. *)
Lemma scalingFactor_compare (srcW srcH dstW dstH : Z) :
  0 < srcW < 2 ^ 53 -> 0 < srcH < 2 ^ 53 ->
  dstW < 2 ^ 53 -> dstH < 2 ^ 53 ->
  SFcompare (scalingFactor srcW srcH dstW dstH) (F64.of_int 1)
  = Some (cmax (dstW ?= srcW) (dstH ?= srcH)).
Proof.
  intros Hsw Hsh Hdw Hdh. unfold scalingFactor.
  apply Max_compare; apply quotient_compare; assumption.
Qed.

Lemma scale_transforms_dimensions (srcW srcH dstW dstH : Z) (upscale : bool) :
  0 < srcW < 2 ^ 53 -> 0 < srcH < 2 ^ 53 ->
  dstW < 2 ^ 53 -> dstH < 2 ^ 53 ->
  scale_transforms (scalingFactor srcW srcH dstW dstH) upscale
  = (dstW <? srcW) && (dstH <? srcH) || upscale.
Proof.
  intros Hsw Hsh Hdw Hdh. unfold scale_transforms, F64.ltb, SFltb.
  rewrite scalingFactor_compare by assumption.
  f_equal. unfold Z.ltb.
  destruct (dstW ?= srcW), (dstH ?= srcH); reflexivity.
Qed.

Lemma gif_returns_source_dimensions (srcW srcH dstW dstH : Z)
    (upscale : bool) :
  0 < srcW < 2 ^ 53 -> 0 < srcH < 2 ^ 53 ->
  dstW < 2 ^ 53 -> dstH < 2 ^ 53 ->
  gif_returns_source (scalingFactor srcW srcH dstW dstH) upscale
  = ((srcW <? dstW) || (srcH <? dstH)) && negb upscale.
Proof.
  intros Hsw Hsh Hdw Hdh. unfold gif_returns_source, F64.gtb, SFltb.
  rewrite SFcompare_antisym, scalingFactor_compare by assumption.
  f_equal. unfold Z.ltb.
  rewrite (Z.compare_antisym dstW srcW), (Z.compare_antisym dstH srcH).
  destruct (dstW ?= srcW), (dstH ?= srcH); reflexivity.
Qed.

(** ** Scaling policy *)

(** The two conditions are complementary on every factor that is a
    number other than one. *)
Lemma policy_agreement_off_one (factor : float64) (upscale : bool) :
  F64.is_nan factor = false ->
  F64.eqb factor (F64.of_int 1) = false ->
  gif_returns_source factor upscale = negb (scale_transforms factor upscale).
Proof.
  intros Hn He. unfold gif_returns_source, scale_transforms.
  unfold F64.gtb, F64.ltb, F64.eqb, SFltb, SFeqb in *.
  rewrite (SFcompare_antisym factor (F64.of_int 1)).
  destruct (SFcompare_not_nan factor (F64.of_int 1) Hn eq_refl) as [c Hc].
  rewrite Hc in *. destruct c, upscale; simpl; congruence.
Qed.

(** At a factor of exactly one, upscale disabled, neither condition
    holds: [scale] leaves the raster as it is and [transformGIF] does
    not return the source. *)
Lemma policy_at_one :
  scale_transforms (F64.of_int 1) false = false /\
  gif_returns_source (F64.of_int 1) false = false.
Proof. split; reflexivity. Qed.

(** C6. [scale] applies the transformation, with the requested size
    and the Lanczos filter, when the factor is below one or upscaling
    is allowed, and returns its argument otherwise; with upscaling
    disabled the condition is [factor < 1], with upscaling allowed it
    always holds. On dimensions that float64 holds exactly, the factor
    is below one when the request is smaller than the source in both
    dimensions. *)
Theorem scale_applies_iff_downscale_or_upscale
    (img : Image) (options : Options) (trans : transformation) :
  let factor := scalingFactorImage img (Width options) (Height options) in
  (F64.ltb factor (F64.of_int 1) = true \/ Upscale options = true ->
   scale img options trans
   = trans img (Width options) (Height options) Lanczos) /\
  (F64.ltb factor (F64.of_int 1) = false -> Upscale options = false ->
   scale img options trans = img) /\
  (forall f, scale_transforms f false = F64.ltb f (F64.of_int 1)) /\
  (forall f, scale_transforms f true = true) /\
  (forall srcW srcH,
      imageSize img = (srcW, srcH) ->
      0 < srcW < 2 ^ 53 -> 0 < srcH < 2 ^ 53 ->
      Width options < 2 ^ 53 -> Height options < 2 ^ 53 ->
      scale img options trans
      = if (Width options <? srcW) && (Height options <? srcH)
           || Upscale options
        then trans img (Width options) (Height options) Lanczos
        else img).
Proof.
  cbv zeta. unfold scale, scale_transforms.
  split; [| split; [| split; [| split]]].
  - intros [H | H]; rewrite H; [reflexivity | now rewrite orb_true_r].
  - intros H1 H2. now rewrite H1, H2.
  - intros f. now rewrite orb_false_r.
  - intros f. now rewrite orb_true_r.
  - intros srcW srcH Hs Hw Hh HW HH.
    unfold scalingFactorImage. rewrite Hs.
    fold (scale_transforms
            (scalingFactor srcW srcH (Width options) (Height options))
            (Upscale options)).
    now rewrite scale_transforms_dimensions.
Qed.

(** Both branches of C6 on a 100 by 50 raster: a 50 by 25 request is
    resampled, a 50 by 50 request is not. *)
Lemma scale_applies_iff_downscale_or_upscale_witness :
  let img := mkImage KNRGBA [] 400 (Sample.box 100 50) in
  scale img (Sample.options PNG 50 25 false) Sample.fill
  = Sample.fill img 50 25 Lanczos /\
  scale img (Sample.options PNG 50 50 false) Sample.fill = img.
Proof.
  split.
  - apply (proj1 (scale_applies_iff_downscale_or_upscale
                    (mkImage KNRGBA [] 400 (Sample.box 100 50))
                    (Sample.options PNG 50 25 false) Sample.fill)).
    left. reflexivity.
  - apply (proj1 (proj2 (scale_applies_iff_downscale_or_upscale
                    (mkImage KNRGBA [] 400 (Sample.box 100 50))
                    (Sample.options PNG 50 50 false) Sample.fill)));
      reflexivity.
Defined.

(** C7. For positive source dimensions, [scalingFactor] is the larger
    of the two quotients [dst / src] (float64 quotients of the
    converted integers): it is one of them and no smaller than either.
    When it is not below one and upscaling is disabled, [scale] returns
    the raster as it is. On dimensions that float64 holds exactly, the
    factor compares with one as the larger of the two exact ratios
    does. *)
Theorem scalingFactor_is_max (srcW srcH dstW dstH : Z) :
  0 < srcW < 2 ^ 63 -> 0 < srcH < 2 ^ 63 ->
  let qw := F64.div (F64.of_int dstW) (F64.of_int srcW) in
  let qh := F64.div (F64.of_int dstH) (F64.of_int srcH) in
  let factor := scalingFactor srcW srcH dstW dstH in
  (factor = qw \/ factor = qh) /\
  F64.leb qw factor = true /\ F64.leb qh factor = true /\
  (forall img options trans,
      imageSize img = (srcW, srcH) ->
      Width options = dstW -> Height options = dstH ->
      Upscale options = false ->
      F64.ltb factor (F64.of_int 1) = false ->
      scale img options trans = img) /\
  (srcW < 2 ^ 53 -> srcH < 2 ^ 53 -> dstW < 2 ^ 53 -> dstH < 2 ^ 53 ->
   SFcompare factor (F64.of_int 1)
   = Some (cmax (dstW ?= srcW) (dstH ?= srcH))).
Proof.
  intros Hw Hh qw qh factor.
  pose proof (Max_is_max qw qh (quotient_not_nan dstW srcW Hw)
                (quotient_not_nan dstH srcH Hh)) as (H1 & H2 & H3).
  split; [assumption |]. split; [assumption |]. split; [assumption |].
  split.
  - intros img options trans Hs HW HH Hu Hf.
    unfold scale, scalingFactorImage. rewrite Hs, HW, HH, Hu.
    fold factor. unfold scale_transforms. now rewrite Hf.
  - intros Hw' Hh' Hdw Hdh. apply scalingFactor_compare; lia.
Qed.

(** C7 on the scenario of the specification: a 100 by 50 source and a
    50 by 50 request give the factor [max(0.5, 1.0) = 1.0], and the
    raster passes through. *)
Lemma scalingFactor_is_max_witness :
  let img := mkImage KNRGBA [] 400 (Sample.box 100 50) in
  F64.div (F64.of_int 50) (F64.of_int 100) = F64.lit 5 10 /\
  F64.div (F64.of_int 50) (F64.of_int 50) = F64.of_int 1 /\
  scalingFactor 100 50 50 50 = F64.of_int 1 /\
  F64.leb (F64.lit 5 10) (scalingFactor 100 50 50 50) = true /\
  scale img (Sample.options PNG 50 50 false) Sample.fill = img.
Proof.
  assert (Hw : 0 < 100 < 2 ^ 63) by lia.
  assert (Hh : 0 < 50 < 2 ^ 63) by lia.
  pose proof (scalingFactor_is_max 100 50 50 50 Hw Hh)
    as (_ & H2 & _ & H4 & _).
  split; [reflexivity |]. split; [reflexivity |]. split; [reflexivity |].
  split; [exact H2 | apply H4; reflexivity].
Defined.

(** C2. The two paths do not agree at a factor of exactly one. With
    upscaling disabled and a request of the source's own size (any
    size), or a 50 by 50 request on a 100 by 50 source, the condition
    of [scale] says "leave the raster as it is" and the condition of
    the early return of [transformGIF] says "do not return the source":
    the GIF pipeline then decodes, re-quantizes and re-encodes every
    unscaled frame. On dimensions that float64 holds exactly this
    happens exactly when no dimension is enlarged and one is kept. *)
Theorem scale_and_gif_exit_differ_at_factor_one :
  let img := mkImage KPaletted [Byte.x01; Byte.x02] 100 (Sample.box 100 50) in
  let options := Sample.options GIF_ 50 50 false in
  scalingFactorImage img (Width options) (Height options) = F64.of_int 1 /\
  (forall trans, scale img options trans = img) /\
  gif_returns_source
    (scalingFactorImage img (Width options) (Height options))
    (Upscale options) = false /\
  (forall trans,
      transformGIF Sample.lib Sample.gif_100x50 options trans
      = Returns (([Byte.x02; Byte.x32; Byte.x32; Byte.x64; Byte.x32;
                   Byte.x01; Byte.x02], None), options)) /\
  (forall w h, 0 < w < 2 ^ 63 -> 0 < h < 2 ^ 63 ->
      scale_transforms (scalingFactor w h w h) false = false /\
      gif_returns_source (scalingFactor w h w h) false = false) /\
  (forall srcW srcH dstW dstH,
      0 < srcW < 2 ^ 53 -> 0 < srcH < 2 ^ 53 ->
      dstW < 2 ^ 53 -> dstH < 2 ^ 53 ->
      let factor := scalingFactor srcW srcH dstW dstH in
      scale_transforms factor false = false /\
      gif_returns_source factor false = false <->
      dstW <= srcW /\ dstH <= srcH /\ (dstW = srcW \/ dstH = srcH)).
Proof.
  cbv zeta.
  split; [vm_compute; reflexivity |].
  split; [intros trans; vm_compute; reflexivity |].
  split; [vm_compute; reflexivity |].
  split; [intros trans; vm_compute; reflexivity |].
  split.
  - intros w h Hw Hh. rewrite scalingFactor_same_size by assumption.
    exact policy_at_one.
  - intros srcW srcH dstW dstH Hsw Hsh Hdw Hdh.
    rewrite scale_transforms_dimensions by assumption.
    rewrite gif_returns_source_dimensions by assumption.
    destruct (Z.ltb_spec dstW srcW), (Z.ltb_spec dstH srcH),
      (Z.ltb_spec srcW dstW), (Z.ltb_spec srcH dstH); simpl;
      split; intros Hc; try lia; try (destruct Hc; discriminate);
      try (split; reflexivity).
Qed.

(** ** Pass-through *)

(** C1, as stated, fails: [Fit] with the box of the image's own size
    and upscaling disabled does not return the source bytes. In the
    sample library a 100 by 50 PNG source requested as BMP at 100 by 50
    comes back as the BMP encoding of the decoded raster. *)
Lemma Fit_same_size_is_not_source :
  ~ (forall L img options image,
        source L img = Ok image ->
        imageSize image = (Width options, Height options) ->
        Upscale options = false ->
        exists options',
          Fit L img options = Returns ((Source img, None), options')).
Proof.
  intros H.
  destruct (H Sample.lib Sample.png_100x50 (Sample.options BMP 100 50 false)
              (mkImage KNRGBA [Byte.x01; Byte.x02] 100 (Sample.box 100 50))
              eq_refl eq_refl eq_refl) as [o Ho].
  vm_compute in Ho. discriminate Ho.
Qed.

Lemma toBytes_scale_passthrough (L : Lib) (image : Image) (options : Options)
    (trans : transformation) :
  scale_transforms
    (scalingFactorImage image (Width options) (Height options))
    (Upscale options) = false ->
  transform L image options trans
  = toBytes L image (Format_ options) (Quality options).
Proof.
  intros H. unfold transform, scale. now rewrite H.
Qed.

(** C1, amended. (a) When the output format is GIF, the first frame
    decodes, and the factor is above one with upscaling disabled, the
    pipeline ([resize] with any transformation, and [Fit]) returns the
    source bytes as they are and leaves the options untouched. (b) In
    the single-frame path, when the policy leaves the raster unscaled,
    the output is the encoding of the decoded raster in the requested
    format, whatever the source bytes were; (c) this is the case of
    [Fit] with the box of the image's own size and upscaling
    disabled. (d) Case (a) in dimensions: a GIF whose first frame is
    smaller than the request in width or in height, upscaling
    disabled, is returned as it is. *)
Theorem passthrough_output (L : Lib) (img : ImageFile) (options : Options)
    (trans : transformation) :
  (forall first,
      Format_ options = GIF_ ->
      gif_Decode L (Source img) = Ok first ->
      gif_returns_source
        (scalingFactorImage first (Width options) (Height options))
        (Upscale options) = true ->
      resize L img options trans = Returns ((Source img, None), options) /\
      Fit L img options = Returns ((Source img, None), options)) /\
  (forall image,
      Format_ options <> GIF_ ->
      source L img = Ok image ->
      scale_transforms
        (scalingFactorImage image (Width options) (Height options))
        (Upscale options) = false ->
      resize L img options trans
      = with_options options
          (toBytes L image (Format_ options) (Quality options)) /\
      Fit L img options
      = with_options options
          (toBytes L image (Format_ options) (Quality options))) /\
  (forall image,
      Format_ options <> GIF_ ->
      source L img = Ok image ->
      imageSize image = (Width options, Height options) ->
      0 < Width options < 2 ^ 63 -> 0 < Height options < 2 ^ 63 ->
      Upscale options = false ->
      Fit L img options
      = with_options options
          (toBytes L image (Format_ options) (Quality options))) /\
  (forall first srcW srcH,
      Format_ options = GIF_ ->
      gif_Decode L (Source img) = Ok first ->
      imageSize first = (srcW, srcH) ->
      0 < srcW < 2 ^ 53 -> 0 < srcH < 2 ^ 53 ->
      Width options < 2 ^ 53 -> Height options < 2 ^ 53 ->
      srcW < Width options \/ srcH < Height options ->
      Upscale options = false ->
      Fit L img options = Returns ((Source img, None), options)).
Proof.
  assert (Hsingle : forall image t,
      Format_ options <> GIF_ ->
      source L img = Ok image ->
      scale_transforms
        (scalingFactorImage image (Width options) (Height options))
        (Upscale options) = false ->
      (if Format_ options =? GIF_
       then r <- transformGIF L img options (imaging_Thumbnail L) ;;
            match r with
            | ((_, Some err), options) => Returns (([], Some err), options)
            | ((content, None), options) =>
                Returns ((content, None), options)
            end
       else match source L img with
            | Fail err => Returns (([], Some err), options)
            | Ok image => with_options options (transform L image options t)
            end)
      = with_options options
          (toBytes L image (Format_ options) (Quality options))).
  { intros image t Hf Hs Hp.
    destruct (Z.eqb_spec (Format_ options) GIF_) as [| _]; [contradiction |].
    rewrite Hs. now rewrite toBytes_scale_passthrough. }
  assert (Hgif : forall first,
      Format_ options = GIF_ ->
      gif_Decode L (Source img) = Ok first ->
      gif_returns_source
        (scalingFactorImage first (Width options) (Height options))
        (Upscale options) = true ->
      resize L img options trans = Returns ((Source img, None), options) /\
      Fit L img options = Returns ((Source img, None), options)).
  { intros first Hf Hd Hp.
    unfold Fit, resize, transformGIF.
    rewrite Hf, Z.eqb_refl, Hd, Hp. simpl. split; reflexivity. }
  split; [exact Hgif |]. split; [| split].
  - intros image Hf Hs Hp. split.
    + unfold resize.
      destruct (Z.eqb_spec (Format_ options) GIF_) as [| _];
        [contradiction |].
      rewrite Hs. now rewrite toBytes_scale_passthrough.
    + unfold Fit. now apply Hsingle.
  - intros image Hf Hs Hsz Hw Hh Hu.
    unfold Fit. apply Hsingle; try assumption.
    unfold scalingFactorImage. rewrite Hsz, Hu.
    now rewrite scalingFactor_same_size.
  - intros first srcW srcH Hf Hd Hsz Hw Hh HW HH Hlt Hu.
    apply (Hgif first); try assumption.
    unfold scalingFactorImage. rewrite Hsz, Hu.
    rewrite gif_returns_source_dimensions by assumption.
    destruct (Z.ltb_spec srcW (Width options)),
      (Z.ltb_spec srcH (Height options)); simpl; try reflexivity; lia.
Qed.

(** C1 (amended) in the sample library: a GIF source asked at twice its
    size comes back as it is; a PNG source asked at its own size as BMP
    comes back as the BMP encoding of its raster. *)
Lemma passthrough_output_witness :
  Fit Sample.lib Sample.gif_100x50 (Sample.options GIF_ 200 100 false)
  = Returns ((Source Sample.gif_100x50, None),
             Sample.options GIF_ 200 100 false) /\
  Fit Sample.lib Sample.png_100x50 (Sample.options BMP 100 50 false)
  = Returns (([Byte.x04; Byte.x64; Byte.x32; Byte.x01; Byte.x02], None),
             Sample.options BMP 100 50 false).
Proof.
  split.
  - apply (proj1 (passthrough_output Sample.lib Sample.gif_100x50
                    (Sample.options GIF_ 200 100 false) Sample.fill)
             (mkImage KPaletted [Byte.x01; Byte.x02] 100 (Sample.box 100 50)));
      reflexivity.
  - rewrite (proj1 (proj2 (proj2 (passthrough_output Sample.lib
                    Sample.png_100x50
                    (Sample.options BMP 100 50 false) Sample.fill)))
             (mkImage KNRGBA [Byte.x01; Byte.x02] 100 (Sample.box 100 50)));
      try reflexivity; try discriminate; simpl; lia.
Defined.

(** ** Fit on animated output *)

(** C5. For GIF output [Fit] does not use the fit-within
    transformation: it hands [imaging.Thumbnail] to the animation
    pipeline, so that it returns exactly what [Thumbnail] returns. In
    the sample library a 100 by 50 GIF asked to fit 40 by 40 gets a
    40 by 40 frame, where the fit-within transformation gives 40 by
    20. *)
Theorem Fit_GIF_uses_Thumbnail :
  (forall L img up q w h pos deg,
      let options := mkOptions up GIF_ q w h pos deg in
      Fit L img options = Thumbnail L img options /\
      Fit L img options
      = (r <- transformGIF L img options (imaging_Thumbnail L) ;;
         match r with
         | ((_, Some err), options) => Returns (([], Some err), options)
         | ((content, None), options) => Returns ((content, None), options)
         end)) /\
  (let options := Sample.options GIF_ 40 40 false in
   Fit Sample.lib Sample.gif_100x50 options
   = Returns (([Byte.x02; Byte.x28; Byte.x28; Byte.x28; Byte.x28;
                Byte.x01; Byte.x02], None), options) /\
   transformGIF Sample.lib Sample.gif_100x50 options
                (imaging_Fit Sample.lib)
   = Returns (([Byte.x02; Byte.x28; Byte.x28; Byte.x28; Byte.x14;
                Byte.x01; Byte.x02], None), options)).
Proof.
  split.
  - intros L img up q w h pos deg options. split; reflexivity.
  - cbv zeta. split; vm_compute; reflexivity.
Qed.

(** ** Rotate and Flip *)

Lemma rotateTransformations_None (L : Lib) (deg : Z) :
  deg <> 90 -> deg <> 180 -> deg <> 270 ->
  rotateTransformations L !! deg = None.
Proof.
  intros H1 H2 H3. unfold rotateTransformations. simpl.
  rewrite !lookup_insert_ne by congruence. apply lookup_empty.
Qed.

Lemma flipTransformations_None (L : Lib) (pos : string) :
  pos <> "h"%string -> pos <> "v"%string ->
  flipTransformations L !! pos = None.
Proof.
  intros H1 H2. unfold flipTransformations. simpl.
  rewrite !lookup_insert_ne by congruence. apply lookup_empty.
Qed.

(** C8. On a source that decodes, [Rotate] with a degree other than
    90, 180 and 270 returns no bytes and the unsupported-degree error,
    and [Flip] with a position other than "h" and "v" returns no bytes
    and the unsupported-position error. *)
Theorem Rotate_Flip_unsupported (L : Lib) (img : ImageFile)
    (options : Options) (image : Image) :
  source L img = Ok image ->
  (Degree options <> 90 -> Degree options <> 180 -> Degree options <> 270 ->
   Rotate L img options
   = Returns ([], Some (ErrRotateDegree (Degree options)))) /\
  (Position options <> "h"%string -> Position options <> "v"%string ->
   Flip L img options
   = Returns ([], Some (ErrFlipPosition (Position options)))).
Proof.
  intros Hs. split.
  - intros H1 H2 H3. unfold Rotate. rewrite Hs.
    now rewrite rotateTransformations_None.
  - intros H1 H2. unfold Flip. rewrite Hs.
    now rewrite flipTransformations_None.
Qed.

(** C8 on the scenario of the specification: degree 45 and position
    "diagonal". *)
Lemma Rotate_Flip_unsupported_witness :
  let options := mkOptions false PNG 90 100 50 "diagonal" 45 in
  Rotate Sample.lib Sample.png_100x50 options
  = Returns ([], Some (ErrRotateDegree 45)) /\
  Flip Sample.lib Sample.png_100x50 options
  = Returns ([], Some (ErrFlipPosition "diagonal")).
Proof.
  cbv zeta.
  destruct (Rotate_Flip_unsupported Sample.lib Sample.png_100x50
              (mkOptions false PNG 90 100 50 "diagonal" 45)
              (mkImage KNRGBA [Byte.x01; Byte.x02] 100 (Sample.box 100 50))
              eq_refl) as [HR HF].
  split.
  - apply HR; discriminate.
  - apply HF; discriminate.
Defined.

(** ** Encoding *)

Lemma encode_unsupported (L : Lib) (w : bytes) (img : Image)
    (format : Format) (quality : Z) :
  format <> JPEG -> format <> PNG -> format <> GIF_ ->
  format <> TIFF -> format <> BMP ->
  encode L w img format quality = Returns (w, Some ErrUnsupportedFormat).
Proof.
  intros H0 H1 H2 H3 H4. unfold encode.
  destruct (Z.eqb_spec format JPEG); [contradiction |].
  destruct (Z.eqb_spec format PNG); [contradiction |].
  destruct (Z.eqb_spec format GIF_); [contradiction |].
  destruct (Z.eqb_spec format TIFF); [contradiction |].
  destruct (Z.eqb_spec format BMP); [contradiction |].
  reflexivity.
Qed.

(** C9. For a format outside the five supported ones, [encode] writes
    nothing and returns the unsupported-format error whatever the
    raster and the quality, and [toBytes] returns no bytes with that
    error. Whenever [toBytes] returns, it returns either all the bytes
    the encoder wrote and no error, or no bytes and the error: what an
    encoder wrote before failing is dropped. *)
Theorem encode_unsupported_or_complete (L : Lib) (img : Image)
    (format : Format) (quality : Z) :
  (format <> JPEG -> format <> PNG -> format <> GIF_ ->
   format <> TIFF -> format <> BMP ->
   (forall w, encode L w img format quality
              = Returns (w, Some ErrUnsupportedFormat)) /\
   toBytes L img format quality = Returns ([], Some ErrUnsupportedFormat)) /\
  (forall out err,
      toBytes L img format quality = Returns (out, err) ->
      match err with
      | None => encode L [] img format quality = Returns (out, None)
      | Some _ => out = []
      end).
Proof.
  split.
  - intros H0 H1 H2 H3 H4. split.
    + intros w. now apply encode_unsupported.
    + unfold toBytes. now rewrite encode_unsupported.
  - intros out err. unfold toBytes.
    destruct (encode L [] img format quality) as [[buf [e |]] |];
      simpl; intros H; try discriminate H;
      injection H as <- <-; reflexivity.
Qed.

(** C9 in the sample library: format 5 is refused, and a PNG encoding
    is returned whole. *)
Lemma encode_unsupported_or_complete_witness :
  let img := mkImage KNRGBA [Byte.x01; Byte.x02] 100 (Sample.box 100 50) in
  toBytes Sample.lib img 5 90 = Returns ([], Some ErrUnsupportedFormat) /\
  encode Sample.lib [] img PNG 90
  = Returns ([Byte.x01; Byte.x64; Byte.x32; Byte.x01; Byte.x02], None).
Proof.
  cbv zeta. split.
  - apply (proj1 (encode_unsupported_or_complete Sample.lib
                    (mkImage KNRGBA [Byte.x01; Byte.x02] 100
                             (Sample.box 100 50)) 5 90));
      discriminate.
  - apply (proj2 (encode_unsupported_or_complete Sample.lib
                    (mkImage KNRGBA [Byte.x01; Byte.x02] 100
                             (Sample.box 100 50)) PNG 90)
             [Byte.x01; Byte.x64; Byte.x32; Byte.x01; Byte.x02] None).
    reflexivity.
Defined.

(** * Further properties of the backend *)

(** ** Colours *)

(** X1. Whatever the string, the colour [Hex2RGB] returns has its
    three channels in 0..255, also when it returns an error. *)
Theorem Hex2RGB_channels_in_range (s : string) :
  let rgb := fst (Hex2RGB s) in
  0 <= Red rgb < 256 /\ 0 <= Green rgb < 256 /\ 0 <= Blue rgb < 256.
Proof.
  cbv zeta. unfold Hex2RGB.
  destruct (strconv.ParseUint s 16 32) as [v [e |]]; simpl.
  - lia.
  - unfold uint8. repeat split; apply Z.mod_pos_bound; lia.
Qed.

Lemma hex_digit_value_nibble (upper : bool) (n : Z) :
  0 <= n < 16 -> hex_digit_value (nibble_char upper n) = Some n.
Proof.
  intros Hn.
  assert (Hall : forallb
            (fun k => match hex_digit_value (nibble_char upper k) with
                      | Some d => d =? k
                      | None => false
                      end)
            (map Z.of_nat (seq 0 16)) = true)
    by (destruct upper; vm_compute; reflexivity).
  rewrite forallb_forall in Hall.
  assert (Hin : In n (map Z.of_nat (seq 0 16))).
  { apply in_map_iff. exists (Z.to_nat n). split; [lia |].
    apply in_seq. lia. }
  specialize (Hall n Hin).
  destruct (hex_digit_value (nibble_char upper n)) as [d |];
    [| discriminate Hall].
  apply Z.eqb_eq in Hall. now subst d.
Qed.

Lemma hex_value_hex6 (upper : bool) (r g b : Z) :
  0 <= r < 256 -> 0 <= g < 256 -> 0 <= b < 256 ->
  hex_value (hex6 upper r g b) = Some (r * 65536 + g * 256 + b).
Proof.
  intros Hr Hg Hb. unfold hex_value, hex6.
  rewrite list_ascii_of_string_of_list_ascii.
  unfold hex_byte. cbn [app hex_value_from].
  pose proof (Z.div_mod r 16 ltac:(lia)).
  pose proof (Z.div_mod g 16 ltac:(lia)).
  pose proof (Z.div_mod b 16 ltac:(lia)).
  pose proof (Z.mod_pos_bound r 16 ltac:(lia)).
  pose proof (Z.mod_pos_bound g 16 ltac:(lia)).
  pose proof (Z.mod_pos_bound b 16 ltac:(lia)).
  assert (0 <= r / 16 < 16)
    by (split; [apply Z.div_pos | apply Z.div_lt_upper_bound]; lia).
  assert (0 <= g / 16 < 16)
    by (split; [apply Z.div_pos | apply Z.div_lt_upper_bound]; lia).
  assert (0 <= b / 16 < 16)
    by (split; [apply Z.div_pos | apply Z.div_lt_upper_bound]; lia).
  rewrite !hex_digit_value_nibble by assumption.
  f_equal. lia.
Qed.

(** X2. [Hex2RGB] inverts the six-digit notation: for channels in
    0..255 written with two hexadecimal digits each, in upper or in
    lower case, it returns these channels and no error; and so it does
    after the leading "#" has been removed as [createWatermark] removes
    it. *)
Theorem Hex2RGB_hex6 (upper : bool) (r g b : Z) :
  0 <= r < 256 -> 0 <= g < 256 -> 0 <= b < 256 ->
  Hex2RGB (hex6 upper r g b) = (mkRGB r g b, None) /\
  Hex2RGB (strings_Replace_hash (String "#" (hex6 upper r g b)))
  = (mkRGB r g b, None).
Proof.
  intros Hr Hg Hb.
  assert (H6 : Hex2RGB (hex6 upper r g b) = (mkRGB r g b, None)).
  { pose proof (ParseUint_16_32_spec (hex6 upper r g b)) as H.
    rewrite hex_value_hex6 in H by assumption.
    destruct (Z.ltb_spec (r * 65536 + g * 256 + b) (2 ^ 32)); [| lia].
    unfold Hex2RGB. rewrite H.
    rewrite !land_255, !Z.shiftr_div_pow2 by lia. unfold uint8.
    rewrite !Z.mod_mod by lia.
    change (2 ^ 16) with 65536. change (2 ^ 8) with 256.
    f_equal. f_equal.
    - symmetry.
      apply Z.mod_unique_pos with ((r * 65536 + g * 256 + b) / 65536 / 256).
      + lia.
      + pose proof (Z.div_unique_pos (r * 65536 + g * 256 + b) 65536 r
                      (g * 256 + b) ltac:(lia) ltac:(lia)) as E.
        rewrite <- E. rewrite Z.div_small by lia. lia.
    - symmetry.
      pose proof (Z.div_unique_pos (r * 65536 + g * 256 + b) 256
                    (r * 256 + g) b ltac:(lia) ltac:(lia)) as E.
      rewrite <- E.
      apply Z.mod_unique_pos with r; lia.
    - symmetry.
      apply Z.mod_unique_pos with (r * 256 + g); lia. }
  split; [exact H6 |].
  simpl strings_Replace_hash. exact H6.
Qed.

Lemma Hex2RGB_hex6_witness :
  Hex2RGB (hex6 true 26 43 60) = (mkRGB 26 43 60, None) /\
  Hex2RGB (strings_Replace_hash (String "#" (hex6 true 26 43 60)))
  = (mkRGB 26 43 60, None).
Proof. apply (Hex2RGB_hex6 true 26 43 60); lia. Defined.

(** ** The watermark *)

Lemma FindLuminenace_three (a b c : float32) :
  exists s, FindLuminenace_body a = Some s /\
            FindLuminenace [a; b; c] = Returns s.
Proof.
  destruct (FindLuminenace_body_returns a) as [s Hs].
  exists s. split; [exact Hs |].
  unfold FindLuminenace. now rewrite (range_return_first _ a [b; c] s Hs).
Qed.

(** The score of an 8-bit red channel is above 1.90 from 116 on. *)
Lemma luminance_threshold (red : Z) :
  0 <= red < 256 ->
  forall s, FindLuminenace_body (F32.of_int red) = Some s ->
            F32.gtb s (F32.lit 190 100) = (116 <=? red).
Proof.
  intros Hr.
  assert (Hall : forallb
            (fun r => match FindLuminenace_body (F32.of_int r) with
                      | Some s => Bool.eqb (F32.gtb s (F32.lit 190 100))
                                           (116 <=? r)
                      | None => false
                      end)
            (map Z.of_nat (seq 0 256)) = true)
    by (vm_compute; reflexivity).
  rewrite forallb_forall in Hall.
  assert (Hin : In red (map Z.of_nat (seq 0 256))).
  { apply in_map_iff. exists (Z.to_nat red). split; [lia |].
    apply in_seq. lia. }
  specialize (Hall red Hin).
  intros s Hs. rewrite Hs in Hall. now apply Bool.eqb_prop.
Qed.

(** X3. [createWatermark] picks its asset from the red channel of the
    dominant colour alone: "watermark_colored.png" when it is 116 or
    more, "watermark.png" otherwise (also when the colour string does
    not parse, the colour then being zero). It panics when that file
    is missing or does not decode, and otherwise returns a fresh
    raster of the base's bounds with the mark drawn at the offset that
    aligns the two centres. *)
Theorem createWatermark_choice (L : Lib) (base : Image) :
  let parsed := Hex2RGB (strings_Replace_hash (FindDominantColor L base)) in
  let rgb := fst parsed in
  (snd parsed <> None -> watermark_path (Red rgb) = "watermark.png"%string) /\
  createWatermark L base
  = match watermark_asset L (watermark_path (Red rgb)) with
    | None => Panics
    | Some mark =>
        let canvas := image_NewRGBA L (Bounds base) in
        let offset :=
          image_Pt (Dx (Bounds base) ÷ 2 - Dx (Bounds mark) ÷ 2)
                   (Dy (Bounds base) ÷ 2 - Dy (Bounds mark) ÷ 2) in
        Returns (draw_DrawMask L
                   (draw_Draw L canvas (Bounds canvas) base ZP Src)
                   (Rectangle_Add (Bounds mark) offset) mark ZP
                   (image_NewUniform_Alpha L 64) ZP Over)
    end.
Proof.
  cbv zeta. split.
  { unfold Hex2RGB.
    destruct (strconv.ParseUint _ 16 32) as [v [e |]]; simpl;
      [reflexivity | congruence]. }
  unfold createWatermark.
  pose proof (Hex2RGB_channels_in_range
                (strings_Replace_hash (FindDominantColor L base))) as Hrange.
  cbv zeta in Hrange.
  destruct (Hex2RGB (strings_Replace_hash (FindDominantColor L base)))
    as [rgb err]. simpl fst in *.
  cbv zeta. cbn [app].
  destruct (FindLuminenace_three (F32.of_int (Red rgb))
              (F32.of_int (Green rgb)) (F32.of_int (Blue rgb)))
    as (s & Hs & Hf).
  unfold float32 in Hf. rewrite Hf. cbn [obind].
  rewrite (luminance_threshold (Red rgb)) by (lia || exact Hs).
  unfold watermark_path.
  destruct (116 <=? Red rgb); reflexivity.
Qed.


(** ** Rotate and Flip: the dispatch tables *)

(** X5. On a source that decodes, [Rotate] encodes the raster turned
    by the primitive of its degree (90, 180 or 270, each to its own
    primitive) and [Flip] the raster mirrored by the primitive of its
    axis ("h" horizontal, "v" vertical), in the requested format and
    quality. *)
Theorem Rotate_Flip_dispatch (L : Lib) (img : ImageFile) (image : Image)
    (up : bool) (f : Format) (q w h : Z) (pos : string) (deg : Z) :
  source L img = Ok image ->
  (forall turn,
      (deg = 90 /\ turn = imaging_Rotate90 L) \/
      (deg = 180 /\ turn = imaging_Rotate180 L) \/
      (deg = 270 /\ turn = imaging_Rotate270 L) ->
      Rotate L img (mkOptions up f q w h pos deg)
      = toBytes L (turn image) f q) /\
  (forall mirror,
      (pos = "h"%string /\ mirror = imaging_FlipH L) \/
      (pos = "v"%string /\ mirror = imaging_FlipV L) ->
      Flip L img (mkOptions up f q w h pos deg)
      = toBytes L (mirror image) f q).
Proof.
  intros Hs. split.
  - intros turn [[-> ->] | [[-> ->] | [-> ->]]];
      unfold Rotate; rewrite Hs; reflexivity.
  - intros mirror [[-> ->] | [-> ->]];
      unfold Flip; rewrite Hs; reflexivity.
Qed.

Lemma Rotate_Flip_dispatch_witness :
  Rotate Sample.lib Sample.png_100x50 (mkOptions false PNG 90 0 0 "v" 270)
  = Returns ([Byte.x01; Byte.x32; Byte.x64; Byte.x01; Byte.x02], None) /\
  Flip Sample.lib Sample.png_100x50 (mkOptions false PNG 90 0 0 "v" 270)
  = Returns ([Byte.x01; Byte.x64; Byte.x32; Byte.x02; Byte.x01], None).
Proof.
  destruct (Rotate_Flip_dispatch Sample.lib Sample.png_100x50
              (mkImage KNRGBA [Byte.x01; Byte.x02] 100 (Sample.box 100 50))
              false PNG 90 0 0 "v" 270 eq_refl) as [HR HF].
  split.
  - rewrite (HR (imaging_Rotate270 Sample.lib)); [reflexivity |].
    right. right. split; reflexivity.
  - rewrite (HF (imaging_FlipV Sample.lib)); [reflexivity |].
    right. split; reflexivity.
Defined.

(** ** Errors of the five operations *)

(** X6. A source that does not decode fails every operation with the
    decoder's error and no bytes, before any option is looked at: an
    unsupported degree, position or format is not reported then, and
    the options are left as they were. For GIF output the decoder is
    [gif.Decode]. *)
Theorem decode_error_first (L : Lib) (img : ImageFile) (options : Options)
    (e : error) :
  (source L img = Fail e ->
   Rotate L img options = Returns ([], Some e) /\
   Flip L img options = Returns ([], Some e) /\
   (Format_ options <> GIF_ ->
    Resize L img options = Returns (([], Some e), options) /\
    Thumbnail L img options = Returns (([], Some e), options) /\
    Fit L img options = Returns (([], Some e), options))) /\
  (Format_ options = GIF_ -> gif_Decode L (Source img) = Fail e ->
   Resize L img options = Returns (([], Some e), options) /\
   Thumbnail L img options = Returns (([], Some e), options) /\
   Fit L img options = Returns (([], Some e), options)).
Proof.
  split.
  - intros Hs. unfold Rotate, Flip, Resize, Thumbnail, Fit, resize.
    rewrite Hs. split; [reflexivity |]. split; [reflexivity |].
    intros Hf. destruct (Z.eqb_spec (Format_ options) GIF_) as [| _];
      [contradiction |].
    repeat split; reflexivity.
  - intros Hf Hd. unfold Resize, Thumbnail, Fit, resize, transformGIF.
    rewrite Hf, Z.eqb_refl, Hd. repeat split; reflexivity.
Qed.

(** An empty source, a bad degree, a bad position and an unsupported
    format together: the decoder's error is the one returned. *)
Lemma decode_error_first_witness :
  let options := mkOptions false 7 90 10 10 "diagonal" 45 in
  Rotate Sample.lib (mkImageFile []) options
  = Returns ([], Some (ErrExternal "unexpected EOF")) /\
  Fit Sample.lib (mkImageFile []) options
  = Returns (([], Some (ErrExternal "unexpected EOF")), options).
Proof.
  cbv zeta.
  destruct (proj1 (decode_error_first Sample.lib (mkImageFile [])
                     (mkOptions false 7 90 10 10 "diagonal" 45)
                     (ErrExternal "unexpected EOF")) eq_refl)
    as (HR & _ & HF).
  split; [exact HR |].
  apply HF. discriminate.
Defined.

(** X7. A GIF whose first frame decodes and whose full decoding fails:
    asked at a size above the first frame's in width or in height, with
    upscaling disabled, it is returned as it is, the full decoding never
    being attempted; asked at any other size, or with upscaling
    allowed, the operation fails with the decoder's error. *)
Theorem partly_decodable_GIF (L : Lib) (img : ImageFile) (options : Options)
    (trans : transformation) (first : Image) (e : error) (srcW srcH : Z) :
  gif_Decode L (Source img) = Ok first ->
  gif_DecodeAll L (Source img) = Fail e ->
  imageSize first = (srcW, srcH) ->
  0 < srcW < 2 ^ 53 -> 0 < srcH < 2 ^ 53 ->
  Width options < 2 ^ 53 -> Height options < 2 ^ 53 ->
  transformGIF L img options trans
  = if ((srcW <? Width options) || (srcH <? Height options))
       && negb (Upscale options)
    then Returns ((Source img, None), options)
    else Returns (([], Some e), options).
Proof.
  intros Hd Ha Hs Hw Hh HW HH. unfold transformGIF.
  rewrite Hd. unfold scalingFactorImage. rewrite Hs.
  rewrite gif_returns_source_dimensions by assumption.
  destruct (((srcW <? Width options) || (srcH <? Height options))
            && negb (Upscale options)); [reflexivity |].
  now rewrite Ha.
Qed.

Lemma partly_decodable_GIF_witness :
  let L := mkLib (decode Sample.lib) (gif_Decode Sample.lib)
             (fun _ => Fail (ErrExternal "gif: not enough image data"))
             (gif_EncodeAll Sample.lib) (jpeg_Encode Sample.lib)
             (png_Encode Sample.lib) (gif_Encode Sample.lib)
             (tiff_Encode Sample.lib) (bmp_Encode Sample.lib)
             (imaging_Resize Sample.lib) (imaging_Thumbnail Sample.lib)
             (imaging_Fit Sample.lib) (imaging_FlipH Sample.lib)
             (imaging_FlipV Sample.lib) (imaging_Rotate90 Sample.lib)
             (imaging_Rotate180 Sample.lib) (imaging_Rotate270 Sample.lib)
             (image_NewRGBA Sample.lib) (image_NewPaletted_Plan9 Sample.lib)
             (image_NewUniform_Alpha Sample.lib) (NRGBA_Opaque Sample.lib)
             (draw_Draw Sample.lib) (draw_DrawMask Sample.lib)
             (FloydSteinberg_Draw Sample.lib) (dominantcolor_Find Sample.lib)
             (dominantcolor_Hex Sample.lib) (watermark_asset Sample.lib) in
  transformGIF L Sample.gif_100x50 (Sample.options GIF_ 200 100 false)
               Sample.fill
  = Returns ((Source Sample.gif_100x50, None),
             Sample.options GIF_ 200 100 false) /\
  transformGIF L Sample.gif_100x50 (Sample.options GIF_ 50 25 false)
               Sample.fill
  = Returns (([], Some (ErrExternal "gif: not enough image data")),
             Sample.options GIF_ 50 25 false).
Proof.
  cbv zeta. split.
  - rewrite (partly_decodable_GIF _ Sample.gif_100x50
               (Sample.options GIF_ 200 100 false) Sample.fill
               (mkImage KPaletted [Byte.x01; Byte.x02] 100 (Sample.box 100 50))
               (ErrExternal "gif: not enough image data") 100 50);
      try reflexivity; simpl; lia.
  - rewrite (partly_decodable_GIF _ Sample.gif_100x50
               (Sample.options GIF_ 50 25 false) Sample.fill
               (mkImage KPaletted [Byte.x01; Byte.x02] 100 (Sample.box 100 50))
               (ErrExternal "gif: not enough image data") 100 50);
      try reflexivity; simpl; lia.
Defined.

(** X8. On a source that decodes, [Resize], [Thumbnail] and [Fit] asked
    for a format outside the five supported ones return no bytes and
    the unsupported-format error, whatever the sizes and the upscale
    flag, and leave the options as they were; [Rotate] and [Flip] do
    so when their degree and position are supported. *)
Theorem unsupported_format_everywhere (L : Lib) (img : ImageFile)
    (options : Options) (image : Image) :
  source L img = Ok image ->
  Format_ options <> JPEG -> Format_ options <> PNG ->
  Format_ options <> GIF_ -> Format_ options <> TIFF ->
  Format_ options <> BMP ->
  Resize L img options = Returns (([], Some ErrUnsupportedFormat), options) /\
  Thumbnail L img options
  = Returns (([], Some ErrUnsupportedFormat), options) /\
  Fit L img options = Returns (([], Some ErrUnsupportedFormat), options) /\
  (Degree options = 90 \/ Degree options = 180 \/ Degree options = 270 ->
   Rotate L img options = Returns ([], Some ErrUnsupportedFormat)) /\
  (Position options = "h"%string \/ Position options = "v"%string ->
   Flip L img options = Returns ([], Some ErrUnsupportedFormat)).
Proof.
  intros Hs H0 H1 H2 H3 H4.
  assert (Hb : forall i, toBytes L i (Format_ options) (Quality options)
                         = Returns ([], Some ErrUnsupportedFormat)).
  { intros i. unfold toBytes. now rewrite encode_unsupported. }
  unfold Resize, Thumbnail, Fit, resize, transform, with_options.
  destruct (Z.eqb_spec (Format_ options) GIF_) as [| _]; [contradiction |].
  rewrite Hs, !Hb.
  split; [reflexivity |]. split; [reflexivity |]. split; [reflexivity |].
  split.
  - intros Hd. unfold Rotate. rewrite Hs.
    destruct Hd as [-> | [-> | ->]]; cbn; apply Hb.
  - intros Hp. unfold Flip. rewrite Hs.
    destruct Hp as [-> | ->]; cbn; apply Hb.
Qed.

Lemma unsupported_format_everywhere_witness :
  let options := mkOptions false 7 90 50 25 "h" 90 in
  Resize Sample.lib Sample.png_100x50 options
  = Returns (([], Some ErrUnsupportedFormat), options) /\
  Rotate Sample.lib Sample.png_100x50 options
  = Returns ([], Some ErrUnsupportedFormat).
Proof.
  cbv zeta.
  destruct (unsupported_format_everywhere Sample.lib Sample.png_100x50
              (mkOptions false 7 90 50 25 "h" 90)
              (mkImage KNRGBA [Byte.x01; Byte.x02] 100 (Sample.box 100 50))
              eq_refl)
    as (HR & _ & _ & HRot & _); try discriminate.
  split; [exact HR |]. apply HRot. left. reflexivity.
Defined.

(** ** What the operations write to the options *)

Lemma transformGIF_options (L : Lib) (img : ImageFile) (options : Options)
    (trans : transformation) (r : bytes * option error) (options' : Options) :
  transformGIF L img options trans = Returns (r, options') ->
  Upscale options' = Upscale options /\
  Format_ options' = Format_ options /\
  Quality options' = Quality options /\
  Position options' = Position options /\
  Degree options' = Degree options /\
  (Width options <> 0 -> Width options' = Width options) /\
  (Height options <> 0 -> Height options' = Height options) /\
  (Width options <> 0 -> Height options <> 0 -> options' = options).
Proof.
  unfold transformGIF.
  destruct (gif_Decode L (Source img)) as [first | e].
  2: { intros H. injection H as <- <-. repeat split. }
  destruct (gif_returns_source _ _).
  { intros H. injection H as <- <-. repeat split. }
  destruct (gif_DecodeAll L (Source img)) as [g | e].
  2: { intros H. injection H as <- <-. repeat split. }
  destruct (index (GImage g) 0) as [frame0 |]; cbn [obind];
    [| discriminate].
  destruct (imageSize first) as [srcW srcH].
  set (o1 := if Width options =? 0
             then set_Width (derive_dimension (Height options) srcW srcH)
                            options
             else options).
  set (o2 := if Height o1 =? 0
             then set_Height (derive_dimension (Width o1) srcH srcW) o1
             else o1).
  assert (Ho : Upscale o2 = Upscale options /\
               Format_ o2 = Format_ options /\
               Quality o2 = Quality options /\
               Position o2 = Position options /\
               Degree o2 = Degree options /\
               (Width options <> 0 -> Width o2 = Width options) /\
               (Height options <> 0 -> Height o2 = Height options) /\
               (Width options <> 0 -> Height options <> 0 -> o2 = options)).
  { subst o2 o1.
    destruct (Z.eqb_spec (Width options) 0) as [Hw | Hw];
      cbn [set_Width Height Width];
      destruct (Z.eqb_spec (Height options) 0) as [Hh | Hh];
      cbn; repeat split; intros; try contradiction; try reflexivity. }
  destruct (gif_EncodeAll L _) as [buf [e |]];
    intros H; injection H as <- <-; exact Ho.
Qed.

(** X9. The only options an operation ever writes are [Width] and
    [Height], and only one that was zero: whenever [Resize],
    [Thumbnail] or [Fit] returns, the upscale flag, the format, the
    quality, the position and the degree are as the caller set them,
    and so is every non-zero dimension. For a format other than GIF,
    and for a request with both dimensions set, the options are
    untouched. *)
Theorem operations_keep_options (L : Lib) (img : ImageFile)
    (options : Options) (r : bytes * option error) (options' : Options) :
  Resize L img options = Returns (r, options') \/
  Thumbnail L img options = Returns (r, options') \/
  Fit L img options = Returns (r, options') ->
  Upscale options' = Upscale options /\
  Format_ options' = Format_ options /\
  Quality options' = Quality options /\
  Position options' = Position options /\
  Degree options' = Degree options /\
  (Width options <> 0 -> Width options' = Width options) /\
  (Height options <> 0 -> Height options' = Height options) /\
  (Width options <> 0 -> Height options <> 0 -> options' = options) /\
  (Format_ options <> GIF_ -> options' = options).
Proof.
  assert (Hgif : forall trans,
      (x <- transformGIF L img options trans ;;
       match x with
       | ((_, Some err), o) => Returns (([], Some err), o)
       | ((content, None), o) => Returns ((content, None), o)
       end) = Returns (r, options') ->
      exists r0, transformGIF L img options trans = Returns (r0, options')).
  { intros trans.
    destruct (transformGIF L img options trans) as [[[c [e |]] o] |];
      cbn [obind]; intros H; try discriminate H;
      injection H as <- <-; eexists; reflexivity. }
  assert (Hsingle : forall trans,
      match source L img with
      | Fail err => Returns (([], Some err), options)
      | Ok image =>
          with_options options (transform L image options trans)
      end = Returns (r, options') -> options' = options).
  { intros trans. destruct (source L img) as [image | e].
    - unfold with_options.
      destruct (transform L image options trans) as [x |]; cbn [obind];
        intros H; [now injection H as <- <- | discriminate H].
    - intros H. now injection H as <- <-. }
  assert (Hall : forall trans t',
      (if Format_ options =? GIF_
       then x <- transformGIF L img options trans ;;
            match x with
            | ((_, Some err), o) => Returns (([], Some err), o)
            | ((content, None), o) => Returns ((content, None), o)
            end
       else match source L img with
            | Fail err => Returns (([], Some err), options)
            | Ok image =>
                with_options options (transform L image options t')
            end) = Returns (r, options') ->
      Upscale options' = Upscale options /\
      Format_ options' = Format_ options /\
      Quality options' = Quality options /\
      Position options' = Position options /\
      Degree options' = Degree options /\
      (Width options <> 0 -> Width options' = Width options) /\
      (Height options <> 0 -> Height options' = Height options) /\
      (Width options <> 0 -> Height options <> 0 -> options' = options) /\
      (Format_ options <> GIF_ -> options' = options)).
  { intros trans t'.
    destruct (Z.eqb_spec (Format_ options) GIF_) as [Hf | Hf]; intros H.
    - destruct (Hgif trans H) as [r0 Hr0].
      pose proof (transformGIF_options L img options trans r0 options' Hr0)
        as (H1 & H2 & H3 & H4 & H5 & H6 & H7 & H8).
      repeat split; try assumption. intros; contradiction.
    - apply Hsingle in H. subst options'. repeat split. }
  intros [H | [H | H]].
  - exact (Hall _ _ H).
  - exact (Hall _ _ H).
  - exact (Hall _ _ H).
Qed.

(** A GIF asked at height 20 and no width: the width is derived (40)
    and written, the rest is kept. *)
Lemma operations_keep_options_witness :
  let options := Sample.options GIF_ 0 20 false in
  exists r options',
    Fit Sample.lib Sample.gif_100x50 options = Returns (r, options') /\
    Width options' = 40 /\ Height options' = 20 /\
    Upscale options' = false /\ Format_ options' = GIF_.
Proof.
  cbv zeta. eexists _, _. split; [vm_compute; reflexivity |].
  destruct (operations_keep_options Sample.lib Sample.gif_100x50
              (Sample.options GIF_ 0 20 false) _ _
              (or_intror (or_intror eq_refl)))
    as (H1 & H2 & _ & _ & _ & _ & H7 & _).
  split; [reflexivity |]. split; [apply H7; discriminate |].
  split; [exact H1 | exact H2].
Defined.

(** ** The animation pipeline *)

Lemma transformGIF_frames_composites (L : Lib) (options : Options)
    (trans : transformation) (frames : list Image) :
  forall im,
    transformGIF_frames L options trans im frames
    = map (fun acc => imageToPaletted L (scale acc options trans))
          (composites L im frames).
Proof.
  induction frames as [| frame rest IH]; intros im; simpl.
  - reflexivity.
  - now rewrite IH.
Qed.

Lemma composites_length (L : Lib) (frames : list Image) :
  forall im, length (composites L im frames) = length frames.
Proof.
  induction frames as [| frame rest IH]; intros im; simpl;
    [reflexivity | now rewrite IH].
Qed.

(** X10. When [transformGIF] does not return the source and the full
    decoding succeeds: with no frame it panics; otherwise it encodes a
    GIF with as many frames as the source, frame i being the
    re-quantized scaling (under the caller's options, before any
    dimension is derived) of frames 0..i drawn in order over a canvas
    of the first frame's size; the delays, the loop count, the
    disposals, the colour model and the background index are those of
    the source; the container's size is the width and height of the
    options as the call leaves them. An encoder error is returned
    with no bytes. *)
Theorem transformGIF_reassembles (L : Lib) (img : ImageFile)
    (options : Options) (trans : transformation) (first : Image) (g : GIF) :
  gif_Decode L (Source img) = Ok first ->
  gif_returns_source
    (scalingFactorImage first (Width options) (Height options))
    (Upscale options) = false ->
  gif_DecodeAll L (Source img) = Ok g ->
  match GImage g with
  | [] => transformGIF L img options trans = Panics
  | frame0 :: _ =>
      exists options',
        let canvas :=
          image_NewRGBA L (image_Rect 0 0 (Dx (Bounds frame0))
                                      (Dy (Bounds frame0))) in
        let frames :=
          map (fun acc => imageToPaletted L (scale acc options trans))
              (composites L canvas (GImage g)) in
        let g' :=
          mkGIF frames (GDelay g) (GLoopCount g) (GDisposal g)
                (mkConfig (ColorModel (GConfig g))
                          (Width options') (Height options'))
                (GBackgroundIndex g) in
        length frames = length (GImage g) /\
        (Width options <> 0 -> Height options <> 0 -> options' = options) /\
        transformGIF L img options trans
        = Returns (match gif_EncodeAll L g' with
                   | (_, Some err) => ([], Some err)
                   | (buf, None) => (buf, None)
                   end, options')
  end.
Proof.
  intros Hd Hp Ha. unfold transformGIF. rewrite Hd, Hp, Ha.
  destruct (GImage g) as [| frame0 rest] eqn:Hg; [reflexivity |].
  cbn [index nth_error obind].
  destruct (imageSize first) as [srcW srcH].
  rewrite transformGIF_frames_composites.
  set (o1 := if Width options =? 0
             then set_Width (derive_dimension (Height options) srcW srcH)
                            options
             else options).
  set (o2 := if Height o1 =? 0
             then set_Height (derive_dimension (Width o1) srcH srcW) o1
             else o1).
  exists o2. cbv zeta. split; [| split].
  - now rewrite length_map, composites_length.
  - intros Hw Hh. subst o2 o1.
    destruct (Z.eqb_spec (Width options) 0) as [| _]; [contradiction |].
    destruct (Z.eqb_spec (Height options) 0) as [| _]; [contradiction |].
    reflexivity.
  - destruct (gif_EncodeAll L _) as [buf [e |]]; reflexivity.
Qed.

Lemma transformGIF_reassembles_witness :
  exists options',
    transformGIF Sample.lib Sample.gif_100x50
                 (Sample.options GIF_ 0 20 false) Sample.fill
    = Returns (([Byte.x02; Byte.x28; Byte.x14; Byte.x00; Byte.x14;
                 Byte.x01; Byte.x02], None), options').
Proof.
  destruct (transformGIF_reassembles Sample.lib Sample.gif_100x50
              (Sample.options GIF_ 0 20 false) Sample.fill
              (mkImage KPaletted [Byte.x01; Byte.x02] 100 (Sample.box 100 50))
              (mkGIF [mkImage KPaletted [Byte.x01; Byte.x02] 100
                              (Sample.box 100 50)]
                     [0] 0 [Byte.x00] (mkConfig [] 100 50) Byte.x00)
              eq_refl eq_refl eq_refl) as (o & _ & _ & H).
  exists o. vm_compute in H. injection H as _ Ho. subst o.
  vm_compute. reflexivity.
Defined.

Lemma composites_bounds (L : Lib) (frames : list Image) :
  (forall dst r src sp op, Bounds (draw_Draw L dst r src sp op) = Bounds dst) ->
  forall im acc, In acc (composites L im frames) -> Bounds acc = Bounds im.
Proof.
  intros Hdraw. induction frames as [| frame rest IH]; intros im acc; simpl.
  - contradiction.
  - intros [<- | Hin]; [apply Hdraw |].
    rewrite (IH _ _ Hin). apply Hdraw.
Qed.

(** X11. If drawing leaves the bounds of its destination as they are,
    every frame of an animation gets the same decision: the factor is
    that of the canvas, so either every composite is resampled to the
    requested size or none is. *)
Theorem frames_share_one_decision (L : Lib) (options : Options)
    (trans : transformation) (im : Image) (frames : list Image) :
  (forall dst r src sp op, Bounds (draw_Draw L dst r src sp op) = Bounds dst) ->
  transformGIF_frames L options trans im frames
  = if scale_transforms
         (scalingFactorImage im (Width options) (Height options))
         (Upscale options)
    then map (fun acc => imageToPaletted L
                           (trans acc (Width options) (Height options)
                                  Lanczos))
             (composites L im frames)
    else map (imageToPaletted L) (composites L im frames).
Proof.
  intros Hdraw. rewrite transformGIF_frames_composites.
  assert (Hscale : forall acc, In acc (composites L im frames) ->
            scale acc options trans
            = if scale_transforms
                   (scalingFactorImage im (Width options) (Height options))
                   (Upscale options)
              then trans acc (Width options) (Height options) Lanczos
              else acc).
  { intros acc Hin. unfold scale, scalingFactorImage, imageSize.
    now rewrite (composites_bounds L frames Hdraw im acc Hin). }
  destruct (scale_transforms _ _); apply map_ext_in; intros acc Hin;
    now rewrite Hscale.
Qed.

Lemma frames_share_one_decision_witness :
  let canvas := mkImage KRGBA [] 400 (Sample.box 100 50) in
  let f1 := mkImage KPaletted [Byte.x01] 100 (Sample.box 100 50) in
  let f2 := mkImage KPaletted [Byte.x02] 100 (Sample.box 60 30) in
  map Rect (transformGIF_frames Sample.lib (Sample.options GIF_ 50 25 false)
                                Sample.fill canvas [f1; f2])
  = [Sample.box 50 25; Sample.box 50 25].
Proof.
  cbv zeta.
  rewrite (frames_share_one_decision Sample.lib
             (Sample.options GIF_ 50 25 false) Sample.fill
             (mkImage KRGBA [] 400 (Sample.box 100 50))
             [mkImage KPaletted [Byte.x01] 100 (Sample.box 100 50);
              mkImage KPaletted [Byte.x02] 100 (Sample.box 60 30)]).
  - vm_compute. reflexivity.
  - intros dst r src sp op. reflexivity.
Defined.

(** ** The policy at the edges *)

Lemma quotient_not_pinf (a b : Z) :
  a < 2 ^ 53 -> 0 < b < 2 ^ 53 ->
  F64.is_pinf (F64.div (F64.of_int a) (F64.of_int b)) = false.
Proof.
  intros Ha Hb. destruct (Z.lt_ge_cases 0 a) as [Hpos | Hneg].
  - destruct (of_int_exact a ltac:(lia)) as (ma & ea & -> & Hma & Hea & _).
    destruct (of_int_exact b Hb) as (mb & eb & -> & Hmb & Heb & _).
    destruct (Z.lt_ge_cases (Z.pos ma) (Z.pos mb)) as [Hlt | Hge].
    + destruct (div_mantissa_lt ma mb ea eb) as (m & -> & _);
        try assumption. reflexivity.
    + destruct (div_mantissa_ge ma mb ea eb) as (m & -> & _);
        try assumption. reflexivity.
  - pose proof (quotient_compare_nonpos a b Hneg Hb) as Hc.
    destruct (F64.div (F64.of_int a) (F64.of_int b)) as [s | [] | | s m e];
      try reflexivity.
    destruct of_int_one as (c & Hone & _). rewrite Hone in Hc.
    discriminate Hc.
Qed.

(** X12. A source of width zero. Asked at a positive width, the factor
    is plus infinity: [scale] leaves the raster as it is unless
    upscaling is allowed, and [transformGIF] returns the source.
    Asked at width zero, the factor is not a number (0 / 0): [scale]
    again leaves the raster as it is, and [transformGIF] does not
    return the source. *)
Theorem zero_width_source (img : Image) (options : Options)
    (trans : transformation) (srcH : Z) :
  imageSize img = (0, srcH) ->
  Upscale options = false ->
  let factor := scalingFactorImage img (Width options) (Height options) in
  (0 < Width options < 2 ^ 63 ->
   factor = S754_infinity false /\
   scale img options trans = img /\
   gif_returns_source factor (Upscale options) = true) /\
  (Width options = 0 -> 0 < srcH < 2 ^ 53 -> Height options < 2 ^ 53 ->
   factor = S754_nan /\
   scale img options trans = img /\
   gif_returns_source factor (Upscale options) = false).
Proof.
  intros Hs Hu. cbv zeta. unfold scale, scalingFactorImage.
  rewrite Hs, Hu. split.
  - intros Hw.
    assert (Hf : scalingFactor 0 srcH (Width options) (Height options)
                 = S754_infinity false).
    { unfold scalingFactor.
      destruct (of_int_pos_finite (Width options) Hw) as (m & e & ->).
      reflexivity. }
    rewrite Hf. repeat split.
  - intros Hw Hh HH.
    assert (Hf : scalingFactor 0 srcH (Width options) (Height options)
                 = S754_nan).
    { unfold scalingFactor, math.Max. rewrite Hw.
      rewrite (quotient_not_pinf (Height options) srcH HH Hh).
      reflexivity. }
    rewrite Hf. repeat split.
Qed.

Lemma zero_width_source_witness :
  let img := mkImage KNRGBA [] 0 (Sample.box 0 50) in
  scalingFactorImage img 10 10 = S754_infinity false /\
  scalingFactorImage img 0 10 = S754_nan.
Proof.
  cbv zeta. split.
  - apply (proj1 (zero_width_source (mkImage KNRGBA [] 0 (Sample.box 0 50))
                    (Sample.options PNG 10 10 false) Sample.fill 50
                    eq_refl eq_refl)).
    simpl; lia.
  - apply (proj2 (zero_width_source (mkImage KNRGBA [] 0 (Sample.box 0 50))
                    (Sample.options PNG 0 10 false) Sample.fill 50
                    eq_refl eq_refl)); simpl; lia.
Defined.

(** X13. A dimension left at zero plays no part in the policy: on a
    source of positive size, a request with width zero is resampled
    exactly when its height is below the source's or upscaling is
    allowed, and likewise with the two dimensions exchanged; a request
    with both at zero is always resampled. *)
Theorem unset_dimension_is_ignored (img : Image) (options : Options)
    (trans : transformation) (srcW srcH : Z) :
  imageSize img = (srcW, srcH) ->
  0 < srcW < 2 ^ 53 -> 0 < srcH < 2 ^ 53 ->
  (Width options = 0 -> Height options < 2 ^ 53 ->
   scale img options trans
   = if (Height options <? srcH) || Upscale options
     then trans img 0 (Height options) Lanczos else img) /\
  (Height options = 0 -> Width options < 2 ^ 53 ->
   scale img options trans
   = if (Width options <? srcW) || Upscale options
     then trans img (Width options) 0 Lanczos else img) /\
  (Width options = 0 -> Height options = 0 ->
   scale img options trans = trans img 0 0 Lanczos).
Proof.
  intros Hs Hw Hh.
  assert (Hgen : Width options < 2 ^ 53 -> Height options < 2 ^ 53 ->
            scale img options trans
            = if (Width options <? srcW) && (Height options <? srcH)
                 || Upscale options
              then trans img (Width options) (Height options) Lanczos
              else img).
  { intros HW HH. unfold scale, scalingFactorImage. rewrite Hs.
    now rewrite scale_transforms_dimensions. }
  split; [| split].
  - intros H0 HH. rewrite Hgen by lia. rewrite H0.
    destruct (Z.ltb_spec 0 srcW); [reflexivity | lia].
  - intros H0 HW. rewrite Hgen by lia. rewrite H0.
    destruct (Z.ltb_spec 0 srcH); [| lia].
    now rewrite andb_true_r.
  - intros H0 H1. rewrite Hgen by lia. rewrite H0, H1.
    destruct (Z.ltb_spec 0 srcW); [| lia].
    destruct (Z.ltb_spec 0 srcH); [reflexivity | lia].
Qed.

Lemma unset_dimension_is_ignored_witness :
  let img := mkImage KNRGBA [] 400 (Sample.box 100 50) in
  scale img (Sample.options PNG 0 25 false) Sample.fill
  = Sample.fill img 0 25 Lanczos /\
  scale img (Sample.options PNG 0 50 false) Sample.fill = img.
Proof.
  cbv zeta.
  destruct (unset_dimension_is_ignored
              (mkImage KNRGBA [] 400 (Sample.box 100 50))
              (Sample.options PNG 0 25 false) Sample.fill 100 50
              eq_refl ltac:(lia) ltac:(lia)) as (H1 & _).
  destruct (unset_dimension_is_ignored
              (mkImage KNRGBA [] 400 (Sample.box 100 50))
              (Sample.options PNG 0 50 false) Sample.fill 100 50
              eq_refl ltac:(lia) ltac:(lia)) as (H2 & _).
  split.
  - rewrite H1; [reflexivity | reflexivity | simpl; lia].
  - rewrite H2; [reflexivity | reflexivity | simpl; lia].
Defined.
